(** * Inference core of astroid: control-flow exclusivity, statement
      filtering, call-argument binding and the inference rules.

    The development follows the Python sources:
    - [astroid/node_classes.py]: [are_exclusive], [LookupMixIn._filter_stmts],
      [Comprehension._get_filtered_stmts], [ExceptHandler.catch],
      [Arguments.find_argname], [Arguments.default_value], [_find_arg],
      [Const.getitem], [List.getitem], [Tuple.getitem], [Dict.getitem],
      [const_factory];
    - [inference.py]: [CallContext.__init__], [CallContext.infer_argument],
      [infer_end], [infer_default], [infer_name], [infer_ass],
      [infer_subscript].

    [Flow] holds the trees that [are_exclusive] and [_filter_stmts] walk:
    Python objects are compared by identity, so a node of a built tree is
    named by its position, the list of steps that leads from the node up to
    the root, and [node.parent] is the tail of that list.  [Infer] holds the
    nodes as the inference rules see them, values included. *)

From Stdlib Require Import ZArith Lia Bool.
From stdpp Require Import base option list strings gmap.

Open Scope string_scope.
Open Scope list_scope.

(** ** Python exceptions and results *)
Module Py.

(** The exceptions of astroid and of Python that the code raises or
    catches.  [Diverge] is not a Python exception: it marks an evaluation
    that has not finished within the recursion depth allowed, and no
    [except] clause catches it. *)
Inductive exn :=
| ASTNGError | InferenceError | UnresolvableName | NotFoundError | NoDefault
| AstroidError | AssertionError
| KeyError | IndexError | TypeError | AttributeError | StopIteration
| Diverge.

#[global] Instance exn_eq_dec : EqDecision exn.
Proof. solve_decision. Defined.

(** [except InferenceError] also catches its subclass [UnresolvableName]. *)
Definition is_InferenceError (e : exn) : bool :=
  match e with InferenceError | UnresolvableName => true | _ => false end.

(** The result of a call: a returned value or a raised exception. *)
Inductive outcome (A : Type) :=
| Ret (a : A)
| Exc (e : exn).
Arguments Ret {A} a.
Arguments Exc {A} e.

#[global] Instance outcome_ret : MRet outcome := fun _ a => Ret a.
#[global] Instance outcome_bind : MBind outcome := fun _ _ k m =>
  match m with Ret a => k a | Exc e => Exc e end.

End Py.
Export Py.

(** ** Syntax trees with parent links ([astroid/node_classes.py]) *)
Module Flow.

(** Node classes.  [Statement] subclasses are listed by [is_statement];
    the scoped classes (module, function, class, lambda) live in
    [scoped_nodes.py]. *)
Inductive kind :=
| Module_ | FunctionDef | ClassDef | Lambda
| If | TryExcept | TryFinally | ExceptHandler | For | While | With
| Assign | AugAssign | Delete | Expr | Pass | Return
| Name (name : string) | AssignName (name : string) | DelName (name : string)
| Const | Tuple | List | Dict | Subscript | Call | Compare
| Comprehension | ListComp.

#[global] Instance kind_eq_dec : EqDecision kind.
Proof. solve_decision. Defined.

(** A node: its class, its [lineno], and the contents of its
    [_astroid_fields] in declaration order.  A field holds one child, a
    sequence of children, or [None]. *)
Inductive tree :=
| Node (k : kind) (lineno : option Z) (fields : list (string * field))
with field :=
| One (c : tree)
| Many (cs : list tree)
| Absent.

Definition tree_kind (t : tree) : kind := let 'Node k _ _ := t in k.
Definition tree_lineno (t : tree) : option Z := let 'Node _ l _ := t in l.
Definition tree_fields (t : tree) : list (string * field) :=
  let 'Node _ _ fs := t in fs.

(** One step down: the field, and the index inside a sequence field. *)
Abbreviation step := (string * option nat)%type.

(** A node object, by identity: the steps from the node up to the root. *)
Abbreviation node := (list step).

Fixpoint assoc (f : string) (fs : list (string * field)) : option field :=
  match fs with
  | [] => None
  | (g, x) :: rest => if decide (g = f) then Some x else assoc f rest
  end.

(** [getattr(node, field)] *)
Definition getattr (t : tree) (f : string) : option field :=
  assoc f (tree_fields t).

Definition child (t : tree) (s : step) : option tree :=
  match getattr t s.1, s.2 with
  | Some (One c), None => Some c
  | Some (Many cs), Some i => cs !! i
  | _, _ => None
  end.

(** Follow steps from the root downwards. *)
Fixpoint descend (t : tree) (down : list step) : option tree :=
  match down with
  | [] => Some t
  | s :: rest => c ← child t s; descend c rest
  end.

Definition deref (t : tree) (n : node) : option tree := descend t (rev n).

Definition kind_at (t : tree) (n : node) : option kind :=
  tree_kind <$> deref t n.

(** [node.parent] *)
Definition parent (n : node) : option node :=
  match n with
  | [] => None
  | _ :: up => Some up
  end.

(** Modelled from the spec: [NodeNG.locate_child], whose module
    [bases.py] is missing ("which immediate child of each ancestor leads to
    the statement", "descend through different branches").  It scans the fields
    of the parent in order and returns the field name together with the
    object found there: the child itself when the field holds one node, the
    sequence object when the child is a member of a sequence.  It raises
    when no field holds the child. *)
Inductive located :=
| LocNode (c : node)
| LocSeq (owner : node) (f : string).

#[global] Instance located_eq_dec : EqDecision located.
Proof. solve_decision. Defined.

Fixpoint locate_in (owner : node) (s : step) (fs : list (string * field))
  : outcome (string * located) :=
  match fs with
  | [] => Exc AstroidError
  | (g, One _) :: rest =>
      if decide (s = (g, None)) then Ret (g, LocNode (s :: owner))
      else locate_in owner s rest
  | (g, Many cs) :: rest =>
      match s with
      | (f, Some i) =>
          if decide (f = g) then
            if decide (i < length cs) then Ret (g, LocSeq owner g)
            else locate_in owner s rest
          else locate_in owner s rest
      | _ => locate_in owner s rest
      end
  | (_, Absent) :: rest => locate_in owner s rest
  end.

Definition locate_child (t : tree) (owner c : node)
  : outcome (string * located) :=
  match c, deref t owner with
  | s :: up, Some o =>
      if decide (up = owner) then locate_in owner s (tree_fields o)
      else Exc AstroidError
  | _, _ => Exc AstroidError
  end.

(** Modelled from the spec: [NodeNG.nodes_of_class(Name)], whose module
    [bases.py] is missing ("the handler catches one of [exception_names]");
    the names of all [Name] nodes of a subtree, the node itself included. *)
Fixpoint names_of (t : tree) : list string :=
  match t with
  | Node k _ fs =>
      match k with Name s => [s] | _ => [] end ++
      (fix over_fields (l : list (string * field)) : list string :=
         match l with
         | [] => []
         | (_, x) :: rest => names_of_field x ++ over_fields rest
         end) fs
  end
with names_of_field (x : field) : list string :=
  match x with
  | One c => names_of c
  | Many cs =>
      (fix over (l : list tree) : list string :=
         match l with
         | [] => []
         | c :: rest => names_of c ++ over rest
         end) cs
  | Absent => []
  end.

(** [ExceptHandler.catch]: a [for] loop that finds nothing falls off the
    end of the method and returns [None], which is false in a condition. *)
Definition catch (t : tree) (handler : node) (exceptions : option (list string))
  : bool :=
  match deref t handler with
  | None => false
  | Some h =>
      match getattr h "type", exceptions with
      | None, _ | Some Absent, _ | _, None => true
      | Some x, Some names =>
          existsb (fun n => bool_decide (n ∈ names)) (names_of_field x)
      end
  end.

(** *** [are_exclusive] *)

(** First loop: index the parents of [stmt1].  [stmt1_parents] and
    [children] get the same keys, so one map stands for both. *)
Fixpoint index_parents (previous : node) (children : gmap node node)
  : gmap node node :=
  match previous with
  | [] => children
  | _ :: up => index_parents up (<[up := previous]> children)
  end.

(** The body run at the common parent [n]: [previous] leads to [stmt2],
    [c1 = children[n]] leads to [stmt1]. *)
Definition at_common (t : tree) (exceptions : option (list string))
  (n previous c1 : node) : outcome bool :=
  match kind_at t n, exceptions with
  | Some If, None =>
      l2 ← locate_child t n previous;
      l1 ← locate_child t n c1;
      Ret (bool_decide (l2.2 ≠ l1.2))
  | Some TryExcept, _ =>
      l2 ← locate_child t n previous;
      l1 ← locate_child t n c1;
      let '(c2attr, c2node) := l2 in
      let '(c1attr, c1node) := l1 in
      if decide (c1node ≠ c2node) then
        Ret ((String.eqb c2attr "body" && String.eqb c1attr "handlers"
                && catch t c1 exceptions)
             || (String.eqb c2attr "handlers" && String.eqb c1attr "body"
                   && catch t previous exceptions)
             || (String.eqb c2attr "handlers" && String.eqb c1attr "orelse")
             || (String.eqb c2attr "orelse" && String.eqb c1attr "handlers"))
      else if String.eqb c2attr "handlers" && String.eqb c1attr "handlers"
      then Ret (bool_decide (previous ≠ c1))
      else Ret false
  | _, _ => Ret false
  end.

(** Second loop: climb among the parents of [stmt2]. *)
Fixpoint climb (t : tree) (exceptions : option (list string))
  (children : gmap node node) (previous : node) : outcome bool :=
  match previous with
  | [] => Ret false
  | _ :: n =>
      match children !! n with
      | Some c1 => at_common t exceptions n previous c1
      | None => climb t exceptions children n
      end
  end.

Definition are_exclusive (t : tree) (stmt1 stmt2 : node)
  (exceptions : option (list string)) : outcome bool :=
  climb t exceptions (index_parents stmt1 ∅) stmt2.

(** *** Navigation used by the statement filter

    The class headers of [node_classes.py] tell which classes are statements
    and which mixin gives a class its [assign_type]; the methods themselves
    are defined in [bases.py], [mixins.py] and [scoped_nodes.py], which are
    missing. *)

(** Subclasses of [Statement] in [node_classes.py], the function and class
    definitions, and the module (whose [statement()] is itself). *)
Definition is_statement (k : kind) : bool :=
  match k with
  | Module_ | FunctionDef | ClassDef
  | If | TryExcept | TryFinally | ExceptHandler | For | While | With
  | Assign | AugAssign | Delete | Expr | Pass | Return => true
  | _ => false
  end.

(** Modelled from the spec: the frame classes of [scoped_nodes.py], which
    is missing; "module/class/function/lambda/comprehension nodes". *)
Definition is_frame (k : kind) : bool :=
  match k with
  | Module_ | FunctionDef | ClassDef | Lambda | ListComp => true
  | _ => false
  end.

Definition has_kind (t : tree) (p : kind -> bool) (n : node) : bool :=
  match kind_at t n with Some k => p k | None => false end.

(** Modelled from the spec: [NodeNG.statement] of [bases.py], which is
    missing; "the lookup statement", the first parent node that is a
    statement, the node itself included. *)
Fixpoint statement (t : tree) (n : node) : outcome node :=
  if has_kind t is_statement n then Ret n
  else match n with
       | [] => Exc AttributeError
       | _ :: up => statement t up
       end.

(** Modelled from the spec: [NodeNG.frame] of [bases.py], which is
    missing; "the enclosing-frame chain", the first enclosing frame, the
    node itself included. *)
Fixpoint frame (t : tree) (n : node) : outcome node :=
  if has_kind t is_frame n then Ret n
  else match n with
       | [] => Exc AttributeError
       | _ :: up => frame t up
       end.

Definition parent_frame (t : tree) (n : node) : outcome node :=
  match parent n with
  | Some up => frame t up
  | None => Exc AttributeError
  end.

Definition fromlineno (t : tree) (n : node) : option Z :=
  deref t n ≫= tree_lineno.

(** Modelled from the spec: [NodeNG.parent_of] of [bases.py], which is
    missing; "syntactically encloses": walk up from [n] and compare each
    parent with [self]. *)
Fixpoint parent_of (self n : node) : bool :=
  match n with
  | [] => false
  | _ :: up => if decide (self = up) then true else parent_of self up
  end.

(** The classes of [node_classes.py] with [AssignTypeMixin], together
    with [Comprehension] and the function and class definitions. *)
Definition assign_type_self (k : kind) : bool :=
  match k with
  | Assign | AugAssign | Delete | ExceptHandler | For | With
  | Comprehension | FunctionDef | ClassDef => true
  | _ => false
  end.

(** The classes of [node_classes.py] with [ParentAssignTypeMixin]. *)
Definition assign_type_parent (k : kind) : bool :=
  match k with
  | AssignName _ | DelName _ | List | Tuple => true
  | _ => false
  end.

(** Modelled from the spec: [assign_type] of the mixins of [mixins.py],
    which is missing; the "per-binding-kind" node of a candidate.  A class
    with [AssignTypeMixin] answers itself, as [Comprehension.assign_type]
    does in [node_classes.py]; a class with [ParentAssignTypeMixin] asks its
    parent; a class without the method fails the
    [assert hasattr(node, 'assign_type')] of the filter. *)
Fixpoint assign_type (t : tree) (n : node) : outcome node :=
  if has_kind t assign_type_self n then Ret n
  else if has_kind t assign_type_parent n then
    match n with
    | [] => Exc AttributeError
    | _ :: up => assign_type t up
    end
  else Exc AssertionError.

(** [optional_assign = True] on [For] and [Comprehension]; the other
    classes keep the default of the base class. *)
Definition optional_assign (t : tree) (n : node) : bool :=
  has_kind t (fun k => match k with For | Comprehension => true | _ => false end) n.

(** Modelled from the spec: [has_base], whose definition is missing; rule
    (4) of the filter, "a candidate whose target has the lookup node as an
    ancestor". *)
Definition has_base (candidate self : node) : bool := parent_of self candidate.

(** [Comprehension._get_filtered_stmts] *)
Definition Comprehension_get_filtered_stmts (t : tree)
  (self lookup_node n : node) (stmts : list node) (mystmt : node)
  : outcome (list node * bool) :=
  if decide (self = mystmt) then
    if has_kind t (fun k => match k with Const | Name _ => true | _ => false end)
         lookup_node
    then Ret ([lookup_node], true)
    else Ret (stmts, false)
  else
    s ← statement t self;
    if decide (s = mystmt) then Ret ([n], true) else Ret (stmts, false).

(** Modelled from the spec: [AssignTypeMixin._get_filtered_stmts] of
    [mixins.py], which is missing; the "per-binding-kind narrowing hook" of
    the other binding kinds.  It follows the hook of [Comprehension]: a
    binding inside the statement of the lookup is the only candidate kept;
    the statement of the lookup itself binds nothing the lookup can see and
    ends the filtering. *)
Definition AssignTypeMixin_get_filtered_stmts (t : tree)
  (self lookup_node n : node) (stmts : list node) (mystmt : node)
  : outcome (list node * bool) :=
  if decide (self = mystmt) then Ret (stmts, true)
  else
    s ← statement t self;
    if decide (s = mystmt) then Ret ([n], true) else Ret (stmts, false).

(** [assign_type._get_filtered_stmts(self, node, _stmts, mystmt)] *)
Definition _get_filtered_stmts (t : tree) (self lookup_node n : node)
  (stmts : list node) (mystmt : node) : outcome (list node * bool) :=
  if has_kind t (fun k => bool_decide (k = Comprehension)) self
  then Comprehension_get_filtered_stmts t self lookup_node n stmts mystmt
  else AssignTypeMixin_get_filtered_stmts t self lookup_node n stmts mystmt.

(** *** [LookupMixIn._filter_stmts] *)

(** [list.index]: the first position holding [x]. *)
Fixpoint index {A} `{EqDecision A} (x : A) (l : list A) : option nat :=
  match l with
  | [] => None
  | y :: rest => if decide (y = x) then Some 0 else S <$> index x rest
  end.

(** [None > n] is false when line numbers are compared. *)
Definition lineno_gt (l : option Z) (n : Z) : bool :=
  match l with Some z => bool_decide (z > n)%Z | None => false end.

Definition is_AssignName (t : tree) (n : node) : bool :=
  has_kind t (fun k => match k with AssignName _ => true | _ => false end) n.
Definition is_DelName (t : tree) (n : node) : bool :=
  has_kind t (fun k => match k with DelName _ => true | _ => false end) n.

Section filter_loop.
Context (t : tree) (self mystmt : node) (mylineno : Z).

(** The end of one iteration, after the [try: pindex = ...] block. *)
Definition keep (n : node) (stmt_parent : option node) (optional : bool)
  (_stmts : list node) (_stmt_parents : list (option node))
  : outcome (list node * list (option node)) :=
  let '(_stmts, _stmt_parents, continue) :=
    if is_AssignName t n then
      if negb optional && bool_decide (stmt_parent = parent mystmt)
      then ([], [], false) else (_stmts, _stmt_parents, false)
    else if is_DelName t n then ([], [], true)
    else (_stmts, _stmt_parents, false) in
  if continue : bool then Ret (_stmts, _stmt_parents)
  else
    excl ← are_exclusive t self n None;
    if excl : bool then Ret (_stmts, _stmt_parents)
    else Ret (_stmts ++ [n], _stmt_parents ++ [stmt_parent]).

Fixpoint filter_loop (stmts : list node)
  (_stmts : list node) (_stmt_parents : list (option node))
  : outcome (list node) :=
  match stmts with
  | [] => Ret _stmts
  | n :: rest =>
      stmt ← statement t n;
      if bool_decide (mylineno > 0)%Z && lineno_gt (fromlineno t stmt) mylineno
      then Ret _stmts
      else
        atype ← assign_type t n;
        if has_base n self then Ret _stmts
        else
          r ← _get_filtered_stmts t atype self n _stmts mystmt;
          let '(_stmts, done) := r in
          if done : bool then Ret _stmts
          else
            let optional := optional_assign t atype in
            if optional && parent_of atype self
            then filter_loop rest [n] [parent stmt]
            else
              match index (parent stmt) _stmt_parents with
              | None =>
                  st ← keep n (parent stmt) optional _stmts _stmt_parents;
                  filter_loop rest st.1 st.2
              | Some pindex =>
                  match _stmts !! pindex with
                  | None => Exc IndexError
                  | Some prev =>
                      patype ← assign_type t prev;
                      if parent_of patype atype
                      then filter_loop rest _stmts _stmt_parents
                      else
                        excl ← (if optional then Ret true
                                else are_exclusive t prev n None);
                        let '(_stmts, _stmt_parents) :=
                          if negb excl
                          then (delete pindex _stmts,
                                delete pindex _stmt_parents)
                          else (_stmts, _stmt_parents) in
                        st ← keep n (parent stmt) optional _stmts _stmt_parents;
                        filter_loop rest st.1 st.2
                  end
              end
  end.
End filter_loop.

(** A candidate survives alone when the loop run on it alone keeps it. *)
Definition survives_alone (t : tree) (self mystmt : node) (mylineno : Z)
  (n : node) : Prop :=
  filter_loop t self mystmt mylineno [n] [] [] = Ret [n].

(** The frame the lookup node is seen from. *)
Definition myframe_of (t : tree) (self : node) (offset : Z) : outcome node :=
  if decide (offset = (-1)%Z) then
    f ← frame t self; parent_frame t f
  else
    myframe ← frame t self;
    s ← statement t self;
    if decide (s = myframe) then
      match parent myframe with
      | Some up => frame t up
      | None => Ret myframe
      end
    else Ret myframe.

(** [mylineno]; [0] disables the filtering on line numbers. *)
Definition mylineno_of (t : tree) (mystmt : node) (offset : Z) : Z :=
  match fromlineno t mystmt with
  | Some l => (l + offset)%Z
  | None => 0%Z
  end.

Definition _filter_stmts (t : tree) (self : node) (stmts : list node)
  (frame_ : node) (offset : Z) : outcome (list node) :=
  myframe ← myframe_of t self offset;
  if negb (bool_decide (myframe = frame_)) || bool_decide (self = frame_)
  then Ret stmts
  else
    mystmt ← statement t self;
    filter_loop t self mystmt (mylineno_of t mystmt offset) stmts [] [].

(** *** The common parent of two nodes *)

(** [stmt1] and [stmt2] meet at [c]: both are below [c], through its
    children [s1 :: c] and [s2 :: c], and no deeper node is a proper
    ancestor of both. *)
Definition meet (stmt1 stmt2 c : node) (s1 s2 : step) : Prop :=
  exists l1 l2, stmt1 = l1 ++ s1 :: c /\ stmt2 = l2 ++ s2 :: c
                /\ (s1 <> s2 \/ l1 = [] \/ l2 = []).

(** The shape of a [TryExcept] node: [_astroid_fields] is
    [('body', 'handlers', 'orelse')]. *)
Definition TryExcept_node (ln : option Z) (body handlers orelse : list tree)
  : tree :=
  Node TryExcept ln
    [("body", Many body); ("handlers", Many handlers); ("orelse", Many orelse)].

(** *** Example trees *)

Definition leaf (k : kind) (ln : Z) : tree := Node k (Some ln) [].

(** [x = <constant>] on line [ln]. *)
Definition assign_x (ln : Z) : tree :=
  Node Assign (Some ln)
    [("targets", Many [leaf (AssignName "x") ln]); ("value", One (leaf Const ln))].

(** [[
try:
    risky()
except ValueError:
    x = 1
else:
    x = 2
]] *)
Definition try_example : tree :=
  Node Module_ (Some 0%Z)
    [("body", Many
        [TryExcept_node (Some 1%Z)
           [Node Expr (Some 2%Z)
              [("value", One (Node Call (Some 2%Z)
                                [("func", One (leaf (Name "risky") 2))]))]]
           [Node ExceptHandler (Some 3%Z)
              [("type", One (leaf (Name "ValueError") 3)); ("name", Absent);
               ("body", Many [assign_x 4])]]
           [assign_x 6]])].

Definition try_node : node := [("body", Some 0)].
Definition try_x1 : node :=
  [("targets", Some 0); ("body", Some 0); ("handlers", Some 0); ("body", Some 0)].
Definition try_x2 : node :=
  [("targets", Some 0); ("orelse", Some 0); ("body", Some 0)].

(** [[
if c:
    x = 1
    for x in y: pass
    x = 3
print x
]] *)
Definition loop_example : tree :=
  Node Module_ (Some 0%Z)
    [("body", Many
        [Node If (Some 1%Z)
           [("test", One (leaf (Name "c") 1));
            ("body", Many
               [assign_x 2;
                Node For (Some 3%Z)
                  [("target", One (leaf (AssignName "x") 3));
                   ("iter", One (leaf (Name "y") 3));
                   ("body", Many [leaf Pass 3]);
                   ("orelse", Many [])];
                assign_x 4]);
            ("orelse", Many [])];
         Node Expr (Some 5%Z) [("value", One (leaf (Name "x") 5))]])].

(** Three modules of one line each: [x = x], [a = b; b = a] and
    [a = b; b = {a: 1}[0]].  A dict node lists its keys and values in the
    order of [get_children]. *)
Definition assign_name (target value : string) : tree :=
  Node Assign (Some 1%Z)
    [("targets", Many [leaf (AssignName target) 1]);
     ("value", One (leaf (Name value) 1))].

Definition self_example : tree :=
  Node Module_ (Some 0%Z) [("body", Many [assign_name "x" "x"])].

Definition mutual_example : tree :=
  Node Module_ (Some 0%Z)
    [("body", Many [assign_name "a" "b"; assign_name "b" "a"])].

Definition cycle_example : tree :=
  Node Module_ (Some 0%Z)
    [("body", Many
        [assign_name "a" "b";
         Node Assign (Some 1%Z)
           [("targets", Many [leaf (AssignName "b") 1]);
            ("value", One
               (Node Subscript (Some 1%Z)
                  [("value", One
                      (Node Dict (Some 1%Z)
                         [("items", Many [leaf (Name "a") 1; leaf Const 1])]));
                   ("slice", One (leaf Const 1))]))]])].

(** The target and the value of the statement at position [i]. *)
Definition target_of (i : nat) : node := [("targets", Some 0); ("body", Some i)].
Definition value_of_stmt (i : nat) : node := [("value", None); ("body", Some i)].
Definition cycle_key : node :=
  [("items", Some 0); ("value", None); ("value", None); ("body", Some 1)].

Definition loop_x1 : node :=
  [("targets", Some 0); ("body", Some 0); ("body", Some 0)].
Definition loop_x2 : node :=
  [("target", None); ("body", Some 1); ("body", Some 0)].
Definition loop_x3 : node :=
  [("targets", Some 0); ("body", Some 2); ("body", Some 0)].
Definition loop_use : node := [("value", None); ("body", Some 1)].

(** The shape of an [If] node: [_astroid_fields] is
    [('test', 'body', 'orelse')]. *)
Definition If_node (ln : option Z) (test : tree) (body orelse : list tree)
  : tree :=
  Node If ln [("test", One test); ("body", Many body); ("orelse", Many orelse)].

(** [[
if a:
    x = 1
else:
    x = 2
print x
]] *)
Definition if_example : tree :=
  Node Module_ (Some 0%Z)
    [("body", Many
        [If_node (Some 1%Z) (leaf (Name "a") 1) [assign_x 2] [assign_x 4];
         Node Expr (Some 5%Z) [("value", One (leaf (Name "x") 5))]])].

Definition if_node : node := [("body", Some 0)].
Definition if_x1 : node := [("targets", Some 0); ("body", Some 0); ("body", Some 0)].
Definition if_x2 : node := [("targets", Some 0); ("orelse", Some 0); ("body", Some 0)].
Definition if_use : node := [("value", None); ("body", Some 1)].

(** The [y] the loop of [loop_example] iterates over. *)
Definition loop_iter : node := [("iter", None); ("body", Some 1); ("body", Some 0)].

(** The shape of a [Tuple] node: [_astroid_fields] is [('elts',)]. *)
Definition Tuple_node (ln : option Z) (elts : list tree) : tree :=
  Node Tuple ln [("elts", Many elts)].

(** The call [risky()] in the body of [try_example]. *)
Definition try_call : node := [("body", Some 0); ("body", Some 0)].

End Flow.

(** ** Nodes as values, call contexts and inference rules
      ([inference.py], [astroid/node_classes.py]) *)
Module Infer.

(** Python values held by [Const] nodes and passed to [const_factory]. *)
Inductive pyval :=
| VNone
| VInt (z : Z)
| VStr (s : string)
| VEmptyTuple
| VEmptyDict.

#[global] Instance pyval_eq_dec : EqDecision pyval.
Proof. solve_decision. Defined.

Set Warnings "-register-all".

(** Nodes.  Nodes that go through the path wrapper carry [uid], their
    identity.  [Compare] stands for the classes that have no inference rule
    and keep [Node.infer = infer_default]. *)
Inductive node :=
| Const (value : pyval)
| List (elts : list node)
| Tuple (elts : list node)
| Dict (items : list (node * node))
| Name (uid : nat) (name : string)
| AssName (uid : nat) (name : string)
| Subscript (uid : nat) (expr : node) (subs : list node)
| Compare (uid : nat)
| Module_ (uid : nat) (name : string)
| Class (uid : nat) (name : string)
| Instance (proxied : node).

(** An inferred value: the [YES] object or a node. *)
Inductive inferred :=
| YES
| Inferred (n : node).

(** A lazy sequence, consumed to its end: the values yielded, and the
    exception that ended it, if any. *)
Definition gen : Type := list inferred * option exn.

Definition iter (l : list inferred) : gen := (l, None).
Definition raising (e : exn) : gen := ([], Some e).

(** A generator function never raises when called: what its body raises
    comes out when the generator is consumed. *)
Definition generator (r : outcome gen) : gen :=
  match r with Ret g => g | Exc e => raising e end.

(** [itertools.chain] *)
Fixpoint chain (its : list gen) : gen :=
  match its with
  | [] => iter []
  | (vs, Some e) :: _ => (vs, Some e)
  | (vs, None) :: rest => let '(ws, e) := chain rest in (vs ++ ws, e)
  end.

(** [seq[i]] for a Python integer [i]: negative indices count from the
    end, an index out of range raises [IndexError]. *)
Definition py_index {A} (l : list A) (i : Z) : outcome A :=
  let n := Z.of_nat (length l) in
  let j := (if i <? 0 then i + n else i)%Z in
  if (j <? 0)%Z then Exc IndexError
  else match l !! Z.to_nat j with
       | Some x => Ret x
       | None => Exc IndexError
       end.

(** [seq[key]] for any Python value: only integers index a sequence. *)
Definition py_getitem {A} (l : list A) (key : pyval) : outcome A :=
  match key with
  | VInt i => py_index l i
  | _ => Exc TypeError
  end.

(** [const_factory]: [CONST_CLS[value.__class__](value)].  The classes of
    all values of [pyval] are in [CONST_CLS]; [Tuple(())] and [Dict({})]
    pass the value as [lineno] and build nodes with no elements. *)
Definition const_factory (value : pyval) : node :=
  match value with
  | VEmptyTuple => Tuple []
  | VEmptyDict => Dict []
  | v => Const v
  end.

(** *** [Arguments] *)

(** A declared parameter: a name, or a tuple of parameters
    ([def f(a, (b, c))]). *)
Inductive param :=
| Param (name : string)
| TupleParam (elts : list param).

Record Arguments := {
  args : list param;
  defaults : list node;
  kwonlyargs : list param;
  kw_defaults : list (option node);
  vararg : option string;
  kwarg : option string
}.

(** [_find_arg(argname, args)] with [rec=False]; [start] is the position of
    the head of [args] in the enumeration. *)
Fixpoint _find_arg_from (start : nat) (argname : string) (l : list param)
  : option nat * option param :=
  match l with
  | [] => (None, None)
  | TupleParam _ :: rest => _find_arg_from (S start) argname rest
  | Param name :: rest =>
      if decide (name = argname) then (Some start, Some (Param name))
      else _find_arg_from (S start) argname rest
  end.

(** [_find_arg(argname, args, rec)]: the recursive call on the elements of
    a tuple does not pass [rec] on. *)
Fixpoint _find_arg_rec (start : nat) (argname : string) (rec : bool)
  (l : list param) : option nat * option param :=
  match l with
  | [] => (None, None)
  | TupleParam elts :: rest =>
      if rec then
        match _find_arg_from 0 argname elts with
        | (Some i, a) => (Some i, a)
        | (None, _) => _find_arg_rec (S start) argname rec rest
        end
      else _find_arg_rec (S start) argname rec rest
  | Param name :: rest =>
      if decide (name = argname) then (Some start, Some (Param name))
      else _find_arg_rec (S start) argname rec rest
  end.

Definition _find_arg (argname : string) (l : list param) (rec : bool)
  : option nat * option param :=
  _find_arg_rec 0 argname rec l.

(** [Arguments.find_argname]: an empty [args] is false in a condition. *)
Definition find_argname (self : Arguments) (argname : string) (rec : bool)
  : option nat * option param :=
  match args self with
  | [] => (None, None)
  | l => _find_arg argname l rec
  end.

(** [Arguments.default_value] *)
Definition default_value (self : Arguments) (argname : string)
  : outcome node :=
  let positional :=
    match (_find_arg argname (args self) false).1 with
    | Some i =>
        let idx := (Z.of_nat i
                    - (Z.of_nat (length (args self))
                       - Z.of_nat (length (defaults self))))%Z in
        if (0 <=? idx)%Z then Some (py_index (defaults self) idx) else None
    | None => None
    end in
  match positional with
  | Some r => r
  | None =>
      match (_find_arg argname (kwonlyargs self) false).1 with
      | Some i =>
          d ← py_index (kw_defaults self) (Z.of_nat i);
          match d with
          | Some n => Ret n
          | None => Exc NoDefault
          end
      | None => Exc NoDefault
      end
  end.

(** The function definition, as far as argument binding reads it:
    [funcnode.args] (here [fargs]), [funcnode.type] and
    [funcnode.parent.frame()]. *)
Record Function := {
  fargs : Arguments;
  type : string;
  parent_frame : node
}.

(** *** Contexts *)

(** [CallContext]: [self.args] (here [cargs]), [self.nargs],
    [self.starargs] and [self.dstarargs]. *)

Record CallContext := {
  cargs : list node;
  nargs : gmap string node;
  starargs : option node;
  dstarargs : option node
}.

(** A call argument: positional, or [Keyword(arg, value)]. *)
Inductive callarg :=
| Positional (n : node)
| Keyword (arg : string) (value : node).

(** [CallContext.__init__] *)
Fixpoint split_args (l : list callarg) (pos : list node)
  (named : gmap string node) : list node * gmap string node :=
  match l with
  | [] => (pos, named)
  | Keyword arg value :: rest => split_args rest pos (<[arg := value]> named)
  | Positional n :: rest => split_args rest (pos ++ [n]) named
  end.

Definition mkCallContext (l : list callarg) (star dstar : option node)
  : CallContext :=
  let '(pos, named) := split_args l [] ∅ in
  {| cargs := pos; nargs := named; starargs := star; dstarargs := dstar |}.

(** The identity part of a context that enters the path: the node, the
    bound receiver, the lookup name and the call context. *)
Definition signature : Type := nat * option nat * option string * option nat.

(** Modelled from the spec: [InferenceContext] of [bases.py], which is
    missing: "path set of (node, context-signature) pairs currently under
    inference (cycle guard); optional CallContext; optional bound-receiver
    node; the name currently being looked up".  A call context comes with
    its identity. *)
Record InferenceContext := {
  path : list signature;
  lookupname : option string;
  callcontext : option (nat * CallContext);
  boundnode : option node
}.

(** [InferenceContext()] *)
Definition fresh : InferenceContext :=
  {| path := []; lookupname := None; callcontext := None; boundnode := None |}.

(** *** [getitem] and [CallContext.infer_argument]

    Both call [.infer] on nodes; the inference function is a parameter
    here and is instantiated by [infer] below.  [infer n None] is the call
    [n.infer()] without a context. *)
Section with_infer.
Context (infer : node -> option InferenceContext -> outcome gen).

(** The loop of [Dict.getitem]. *)
Definition key_matches (lookup_key : pyval) (v : inferred) : bool :=
  match v with
  | Inferred (Const value) => bool_decide (value = lookup_key)
  | _ => false
  end.

Fixpoint Dict_getitem (items : list (node * node)) (lookup_key : pyval)
  (context : option InferenceContext) : outcome node :=
  match items with
  | [] => Exc IndexError
  | (key, value) :: rest =>
      g ← infer key context;
      if existsb (key_matches lookup_key) g.1 then Ret value
      else match g.2 with
           | Some e => Exc e
           | None => Dict_getitem rest lookup_key context
           end
  end.

(** The inference of the key of an item ends without an exception and
    gives no constant equal to the lookup key. *)
Definition misses (context : option InferenceContext) (lookup_key : pyval)
  (item : node * node) : Prop :=
  exists vs, infer item.1 context = Ret (vs, None)
             /\ existsb (key_matches lookup_key) vs = false.

(** [self.getitem(index, context=None)]: [Const.getitem] (defined on
    strings), [List.getitem], [Tuple.getitem], [Dict.getitem]; the other
    classes have no such attribute. *)
Definition getitem (self : node) (index : pyval)
  (context : option InferenceContext) : outcome node :=
  match self with
  | Const (VStr s) =>
      c ← py_getitem (String.list_ascii_of_string s) index;
      Ret (Const (VStr (String c EmptyString)))
  | Const _ => Exc TypeError
  | List elts | Tuple elts => py_getitem elts index
  | Dict items => Dict_getitem items index context
  | _ => Exc AttributeError
  end.

(** The body of the loops over [starargs] and [dstarargs]: one iterator
    per inferred value. *)
Fixpoint expand (vals : list inferred) (key : pyval)
  (context : InferenceContext) : outcome (list gen) :=
  match vals with
  | [] => Ret []
  | YES :: rest => its ← expand rest key context; Ret (iter [YES] :: its)
  | Inferred infered :: rest =>
      match (item ← getitem infered key None; infer item (Some context)) with
      | Ret g => its ← expand rest key context; Ret (g :: its)
      | Exc e =>
          if is_InferenceError e || bool_decide (e = AttributeError) then
            its ← expand rest key context; Ret (iter [YES] :: its)
          else if bool_decide (e = IndexError) || bool_decide (e = TypeError)
          then expand rest key context
          else Exc e
      end
  end.

(** [for infered in star.infer(context): ...; if its: return chain of its];
    [None] when the code falls through. *)
Definition from_expansion (star : option node) (key : pyval)
  (context : InferenceContext) : outcome (option gen) :=
  match star with
  | None => Ret None
  | Some s =>
      g ← infer s (Some context);
      its ← expand g.1 key context;
      match g.2 with
      | Some e => Exc e
      | None => Ret (match its with [] => None | _ => Some (chain its) end)
      end
  end.

Section infer_argument.
(** [iter(node)] on a node object. *)
Context (iter_node : node -> outcome gen).
Context (self : CallContext) (funcnode : Function) (name : string)
        (context : InferenceContext).

(** Steps 5 and 6. *)
Definition from_declaration : outcome gen :=
  if decide (Some name = vararg (fargs funcnode)) then
    iter_node (const_factory VEmptyTuple)
  else if decide (Some name = kwarg (fargs funcnode)) then
    iter_node (const_factory VEmptyDict)
  else
    match (d ← default_value (fargs funcnode) name;
           infer d (Some context)) with
    | Exc NoDefault => Exc InferenceError
    | r => r
    end.

(** Step 4 and what follows it. *)
Definition from_dstarargs : outcome gen :=
  r ← from_expansion (dstarargs self) (VStr name) context;
  match r with
  | Some g => Ret g
  | None => from_declaration
  end.

(** Step 3 and what follows it. *)
Definition from_starargs (argindex : nat) : outcome gen :=
  r ← from_expansion (starargs self) (VInt (Z.of_nat argindex)) context;
  match r with
  | Some g => Ret g
  | None => from_dstarargs
  end.

(** The [except KeyError] block. *)
Definition from_position : outcome gen :=
  match (find_argname (fargs funcnode) name false).1 with
  | None => from_dstarargs
  | Some argindex =>
      if bool_decide (argindex = 0)
         && (bool_decide (type funcnode = "method")
             || bool_decide (type funcnode = "classmethod"))
      then
        let bound :=
          match boundnode context with
          | Some b => b
          | None => parent_frame funcnode
          end in
        if bool_decide (type funcnode = "method")
        then Ret (iter [Inferred (Instance bound)])
        else Ret (iter [Inferred bound])
      else
        match cargs self !! argindex with
        | None => from_starargs argindex
        | Some a =>
            match infer a (Some context) with
            | Exc IndexError => from_starargs argindex
            | r => r
            end
        end
  end.

(** The call binds nothing to the parameter by position: the
    parameter is not found among the declared ones, or it is not the
    implicit first parameter of a method, no positional argument has
    its index and the star-expansion gives nothing. *)
Definition no_positional : Prop :=
  match (find_argname (fargs funcnode) name false).1 with
  | None => True
  | Some argindex =>
      (argindex = 0 -> type funcnode <> "method"
                       /\ type funcnode <> "classmethod")
      /\ cargs self !! argindex = None
      /\ from_expansion (starargs self) (VInt (Z.of_nat argindex)) context
         = Ret None
  end.

Definition infer_argument : outcome gen :=
  match nargs self !! name with
  | None => from_position
  | Some n =>
      match infer n (Some context) with
      | Exc KeyError => from_position
      | r => r
      end
  end.
End infer_argument.
End with_infer.

(** *** The inference rules of [inference.py] *)

(** What the rules read from the rest of the tree: [self.lookup(name)], the
    frame and the filtered bindings of a name at a [Name] node, and the
    value bound by the assignment an [AssName] belongs to. *)
Record program := {
  lookup : nat -> string -> option nat * list node;
  assigned_value : nat -> option node
}.

(** [infer_end] *)
Definition infer_end (self : node) : gen := iter [Inferred self].

(** [infer_default] *)
Definition infer_default (self : node) : outcome gen := Exc InferenceError.

(** The identity of the bound receiver: an instance counts as its class. *)
Fixpoint node_uid (n : node) : option nat :=
  match n with
  | Name u _ | AssName u _ | Subscript u _ _ | Compare u
  | Module_ u _ | Class u _ => Some u
  | Instance c => node_uid c
  | _ => None
  end.

Definition signature_of (uid : nat) (context : InferenceContext) : signature :=
  (uid, boundnode context ≫= node_uid, lookupname context,
   fst <$> callcontext context).

Definition push (key : signature) (context : InferenceContext)
  : InferenceContext :=
  {| path := key :: path context; lookupname := lookupname context;
     callcontext := callcontext context; boundnode := boundnode context |}.

(** Modelled from the spec: [path_wrapper], the cycle guard, whose
    module is missing.  "compute a signature (node identity + normalized
    context: bound receiver, lookup name, call-context identity).  If
    already present in [context.path], short-circuit to Unknown; else add
    it, run the rule, remove it on exit."  The path is handed down to the
    rule, so the caller's path is the one before the addition.  Without a
    context a new one is made. *)
Definition path_wrapper (rule : node -> InferenceContext -> outcome gen)
  (uid : nat) (n : node) (context : option InferenceContext) : outcome gen :=
  let context := default fresh context in
  let key := signature_of uid context in
  if bool_decide (key ∈ path context) then Ret (iter [YES])
  else Ret (generator (rule n (push key context))).

(** Modelled from the spec: [InferenceContext.clone], "cloned (shallow)". *)
Definition clone (context : InferenceContext) : InferenceContext :=
  {| path := path context; lookupname := lookupname context;
     callcontext := callcontext context; boundnode := boundnode context |}.

Definition set_lookupname (name : string) (context : InferenceContext)
  : InferenceContext :=
  {| path := path context; lookupname := Some name;
     callcontext := callcontext context; boundnode := boundnode context |}.

(** [gen.next()] *)
Definition next (g : gen) : outcome inferred :=
  match g with
  | (v :: _, _) => Ret v
  | ([], Some e) => Exc e
  | ([], None) => Exc StopIteration
  end.

Section rules.
Context (infer : node -> option InferenceContext -> outcome gen).
Context (prog : program).

(** Modelled from the spec: [_infer_stmts], whose module is missing.
    "Infer each surviving binding's bound value; union the results"; a
    failing candidate is caught locally and "degrades to Unknown or skips
    the candidate" (an unresolvable name is skipped, another inference
    error yields Unknown); an empty result is an [InferenceError]. *)
Fixpoint _infer_stmts_from (stmts : list inferred)
  (context : InferenceContext) (inferred_ : bool) : gen :=
  match stmts with
  | [] => if inferred_ then iter [] else raising InferenceError
  | YES :: rest =>
      let '(ws, e) := _infer_stmts_from rest context true in (YES :: ws, e)
  | Inferred stmt :: rest =>
      let '(vs, e) := generator (infer stmt (Some context)) in
      let seen := inferred_ || negb (bool_decide (vs = [])) in
      match e with
      | None =>
          let '(ws, e') := _infer_stmts_from rest context seen in
          (vs ++ ws, e')
      | Some UnresolvableName =>
          let '(ws, e') := _infer_stmts_from rest context seen in
          (vs ++ ws, e')
      | Some InferenceError =>
          let '(ws, e') := _infer_stmts_from rest context true in
          (vs ++ YES :: ws, e')
      | Some e => (vs, Some e)
      end
  end.

Definition _infer_stmts (stmts : list inferred)
  (context : InferenceContext) (frame : option nat) : gen :=
  _infer_stmts_from stmts context false.

(** [infer_name] *)
Definition infer_name (self : node) (context : InferenceContext)
  : outcome gen :=
  match self with
  | Name uid name =>
      let '(frame, stmts) := lookup prog uid name in
      match stmts with
      | [] => Exc UnresolvableName
      | _ =>
          let context := set_lookupname name (clone context) in
          Ret (_infer_stmts (Inferred <$> stmts) context frame)
      end
  | _ => Exc AttributeError
  end.

(** Modelled from the spec: [assigned_stmts] of an assignment target,
    whose module is missing: "the binding's bound value", inferred. *)
Definition assigned_stmts (self : node) (context : InferenceContext)
  : outcome gen :=
  match self with
  | AssName uid _ =>
      match assigned_value prog uid with
      | Some value => infer value (Some context)
      | None => Exc InferenceError
      end
  | _ => Exc AttributeError
  end.

(** [infer_ass]: [list(...)] consumes the generator, so an exception that
    ends it is raised by the call. *)
Definition infer_ass (self : node) (context : InferenceContext)
  : outcome gen :=
  g ← assigned_stmts self context;
  match g.2 with
  | Some e => Exc e
  | None => Ret (_infer_stmts g.1 context None)
  end.

(** [index.value] *)
Definition value_of (v : node) : outcome pyval :=
  match v with
  | Const value => Ret value
  | _ => Exc AttributeError
  end.

(** [infer_subscript], a generator function.  A [StopIteration] raised
    by [.next()] in its body ends the generator. *)
Definition infer_subscript (self : node) (context : InferenceContext)
  : gen :=
  match self with
  | Subscript _ expr [sub] =>
      match (g ← infer sub (Some context); next g) with
      | Exc StopIteration => iter []
      | Exc e => raising e
      | Ret YES => iter [YES]
      | Ret (Inferred index) =>
          match (v ← value_of index; getitem infer expr v None) with
          | Exc AttributeError => raising InferenceError
          | Exc IndexError | Exc TypeError => iter [YES]
          | Exc e => raising e
          | Ret assigned => generator (infer assigned (Some context))
          end
      end
  | Subscript _ _ _ => raising InferenceError
  | _ => raising AttributeError
  end.
End rules.

(** [node.infer(context)]: the rule that [inference.py] attaches to the
    class of the node, behind the path wrapper where it is wrapped.  An
    [Instance] is a value and stands for itself, as the other values do.
    [depth] bounds the nesting of calls. *)
Fixpoint infer (prog : program) (depth : nat) (n : node)
  (context : option InferenceContext) : outcome gen :=
  match depth with
  | 0 => Exc Diverge
  | S depth =>
      match n with
      | Const _ | List _ | Tuple _ | Dict _
      | Module_ _ _ | Class _ _ | Instance _ =>
          Ret (infer_end n)
      | Name uid _ =>
          path_wrapper (infer_name (infer prog depth) prog) uid n context
      | AssName uid _ =>
          path_wrapper (infer_ass (infer prog depth) prog) uid n context
      | Subscript uid _ _ =>
          path_wrapper
            (fun self c => Ret (infer_subscript (infer prog depth) self c))
            uid n context
      | Compare _ => infer_default n
      end
  end.

(** *** Termination: what is needed to state it *)

(** Values: the nodes whose inference is [infer_end]. *)
Definition is_value (n : node) : bool :=
  match n with
  | Const _ | List _ | Tuple _ | Dict _
  | Module_ _ _ | Class _ _ | Instance _ => true
  | _ => false
  end.

Definition is_inferred_value (v : inferred) : bool :=
  match v with
  | YES => true
  | Inferred n => is_value n
  end.

(** An evaluation that has come to its end, by exhaustion or by a Python
    exception, and has yielded values only. *)
Definition finished (r : outcome gen) : Prop :=
  (generator r).2 <> Some Diverge
  /\ Forall (fun v => is_inferred_value v = true) (generator r).1.

(** A set of nodes closed under what the rules follow: the bindings of a
    name, the value of a binding, the indices of a subscript and the
    elements of the list or tuple it subscripts; no subscript is on a dict
    node. *)
Record closed (prog : program) (U : list node) : Prop := {
  closed_lookup : forall uid name s,
    Name uid name ∈ U -> s ∈ (lookup prog uid name).2 -> s ∈ U;
  closed_assigned : forall uid name v,
    AssName uid name ∈ U -> assigned_value prog uid = Some v -> v ∈ U;
  closed_subs : forall uid expr subs s,
    Subscript uid expr subs ∈ U -> s ∈ subs -> s ∈ U;
  closed_elts : forall uid expr subs,
    Subscript uid expr subs ∈ U ->
    match expr with
    | Dict _ => False
    | List elts | Tuple elts => forall e, e ∈ elts -> e ∈ U
    | _ => True
    end
}.

(** The signatures that the inference of nodes of [U] can put on the
    path, starting from the context [context]. *)
Definition wrapped_uid (n : node) : option nat :=
  match n with
  | Name u _ | AssName u _ | Subscript u _ _ => Some u
  | _ => None
  end.

Definition looked_up (n : node) : option (option string) :=
  match n with
  | Name _ name => Some (Some name)
  | _ => None
  end.

Definition lookupnames (U : list node) (context : InferenceContext)
  : list (option string) :=
  lookupname context :: omap looked_up U.

Definition signatures (U : list node) (context : InferenceContext)
  : list signature :=
  uid ← omap wrapped_uid U;
  name ← lookupnames U context;
  [(uid, boundnode context ≫= node_uid, name, fst <$> callcontext context)].

(** A context reached from [context0] while nodes of [U] are inferred:
    the receiver and the call context are those of [context0], the lookup
    name is that of [context0] or the name of a [Name] node of [U]. *)
Definition compatible (U : list node) (context0 context : InferenceContext)
  : Prop :=
  boundnode context = boundnode context0
  /\ callcontext context = callcontext context0
  /\ lookupname context ∈ lookupnames U context0.

(** The signatures not yet on the path. *)
Definition remaining (K : list signature) (p : list signature) : nat :=
  length (filter (fun k => k ∉ p) K).

(** *** Example programs *)

(** A program without bindings. *)
Definition no_bindings : program :=
  {| lookup := fun _ _ => (None, []); assigned_value := fun _ => None |}.

(** The examples are modules of one line.  The lookup of a name gives
    the bindings that [_filter_stmts] keeps ([FilterTheory.lookups] below):
    none for the [x] on the right of [x = x], the binding in the other
    statement for the names of [a = b; b = a]. *)

(** [x = x]: the name on the right is node 1, the target node 2. *)
Definition self_reference : program :=
  {| lookup := fun _ _ => (None, []);
     assigned_value := fun uid =>
       match uid with
       | 2 => Some (Name 1 "x")
       | _ => None
       end |}.

(** [a = b; b = a]: [b] on the right is node 1, the target [a] node 2,
    [a] on the right node 3, the target [b] node 4. *)
Definition mutual_reference : program :=
  {| lookup := fun uid _ =>
       match uid with
       | 1 => (Some 0, [AssName 4 "b"])
       | 3 => (Some 0, [AssName 2 "a"])
       | _ => (None, [])
       end;
     assigned_value := fun uid =>
       match uid with
       | 2 => Some (Name 1 "b")
       | 4 => Some (Name 3 "a")
       | _ => None
       end |}.

(** [a = b; b = {a: 1}[0]]: [b] on the right is node 1, the target [a]
    node 2, the key [a] node 3, the target [b] node 4, the subscript
    node 5. *)
Definition dict_key : node := Name 3 "a".
Definition dict_subscript : node :=
  Subscript 5 (Dict [(dict_key, Const (VInt 1))]) [Const (VInt 0)].
Definition dict_key_cycle : program :=
  {| lookup := fun uid _ =>
       match uid with
       | 1 => (Some 0, [AssName 4 "b"])
       | 3 => (Some 0, [AssName 2 "a"])
       | _ => (None, [])
       end;
     assigned_value := fun uid =>
       match uid with
       | 2 => Some (Name 1 "b")
       | 4 => Some dict_subscript
       | _ => None
       end |}.

(** [iter(obj)] on an object whose class defines neither [__iter__] nor
    [__getitem__], as the node classes of [node_classes.py]. *)
Definition iter_object (n : node) : outcome gen := Exc TypeError.

(** [class A: def m(self, y=5): return y] *)
Definition class_A : node := Class 1 "A".
Definition method_m : Function :=
  {| fargs := {| args := [Param "self"; Param "y"];
                 defaults := [Const (VInt 5)];
                 kwonlyargs := []; kw_defaults := [];
                 vararg := None; kwarg := None |};
     type := "method";
     parent_frame := class_A |}.

(** The context in which the body of [A().m(...)] is inferred. *)
Definition bound_to_A : InferenceContext :=
  {| path := []; lookupname := Some "y"; callcontext := None;
     boundnode := Some (Instance class_A) |}.

(** A plain function with the given parameters and catch-all names:
    [def f(x)], [def g] with a catch-all positional parameter [args],
    [def h] with a catch-all keyword parameter [kw]. *)
Definition plain (params : list param) (star dstar : option string) : Function :=
  {| fargs := {| args := params; defaults := [];
                 kwonlyargs := []; kw_defaults := [];
                 vararg := star; kwarg := dstar |};
     type := "function";
     parent_frame := Module_ 0 "m" |}.

(** [Arguments.is_argument] *)
Definition is_argument (self : Arguments) (name : string) : bool :=
  if decide (Some name = vararg self) then true
  else if decide (Some name = kwarg self) then true
  else match (find_argname self name true).2 with
       | Some _ => true
       | None => false
       end.

(** [List.from_constants] and [Tuple.from_constants] *)
Definition List_from_constants (elts : option (list pyval)) : node :=
  List (match elts with
        | None => []
        | Some l => const_factory <$> l
        end).

Definition Tuple_from_constants (elts : option (list pyval)) : node :=
  Tuple (match elts with
         | None => []
         | Some l => const_factory <$> l
         end).

(** [Dict.from_constants]; the Python dict is given by its items, in the
    order of [items.items()]. *)
Definition Dict_from_constants (items : option (list (pyval * pyval))) : node :=
  Dict (match items with
        | None => []
        | Some l => (fun kv => (const_factory kv.1, const_factory kv.2)) <$> l
        end).

(** *** [unpack_infer] *)

(** [inferred is stmt].  A node whose rule is [infer_end] yields itself;
    a node behind the path wrapper yields values, which are of other
    classes than the node: on what [infer] yields, being the same object as
    [stmt] and being equal to it coincide. *)
Fixpoint node_eq_dec (a b : node) {struct a} : Decision (a = b).
Proof.
  pose proof (node_eq_dec : EqDecision node) as Hdec.
  unfold Decision. decide equality; try apply decide; try exact _.
Defined.
#[global] Existing Instance node_eq_dec.

#[global] Instance inferred_eq_dec : EqDecision inferred.
Proof. solve_decision. Defined.

(** [unpack_infer], a generator function.  [depth] bounds the nesting of
    calls, of [unpack_infer] and of [infer] alike. *)
Fixpoint unpack_infer (prog : program) (depth : nat) (stmt : node)
  (context : option InferenceContext) : gen :=
  match depth with
  | 0 => raising Diverge
  | S d =>
      match stmt with
      | List elts | Tuple elts =>
          chain ((fun elt => unpack_infer prog d elt context) <$> elts)
      | _ =>
          match (g ← infer prog depth stmt context; next g) with
          | Exc StopIteration => iter []
          | Exc e => raising e
          | Ret inferred_ =>
              if decide (inferred_ = Inferred stmt) then iter [inferred_]
              else
                match infer prog depth stmt context with
                | Exc e => raising e
                | Ret g =>
                    chain (((fun v => match v with
                                      | YES => iter [YES]
                                      | Inferred n => unpack_infer prog d n context
                                      end) <$> g.1)
                           ++ [([], g.2)])
                end
          end
      end
  end.

(** The nodes at the leaves of nested list and tuple nodes, from left
    to right, and the depth of the nesting. *)
Fixpoint leaves (n : node) : list node :=
  match n with
  | List elts | Tuple elts => concat (map leaves elts)
  | _ => [n]
  end.

Fixpoint height (n : node) : nat :=
  match n with
  | List elts | Tuple elts => S (list_max (map height elts))
  | _ => 0
  end.

Definition is_sequence (n : node) : bool :=
  match n with
  | List _ | Tuple _ => true
  | _ => false
  end.

End Infer.

(** ** Nodes built from living objects ([raw_building.py]) *)
Module Raw.
Import Infer.

(** [build_function]: the [Arguments] node of the function it returns.
    [args or []] and [defaults or []] make no difference between [None] and
    an empty sequence; the parameters are [Name] nodes, the defaults are
    built by [const_factory]. *)
Definition build_function (args : option (list string))
  (defaults : option (list pyval)) : Arguments :=
  {| Infer.args := Param <$> default [] args;
     Infer.defaults := const_factory <$> default [] defaults;
     kwonlyargs := []; kw_defaults := [];
     vararg := None; kwarg := None |}.

(** [object_build_function]: the arguments it hands to [build_function]
    for a function whose [getargspec] is [(args, varargs, varkw, defaults)],
    with plain names in [args]. *)
Definition object_build_function (args : list string)
  (varargs varkw : option string) (defaults : option (list pyval))
  : Arguments :=
  let args := match varargs with Some v => args ++ [v] | None => args end in
  let args := match varkw with Some v => args ++ [v] | None => args end in
  build_function (Some args) defaults.

(** What [register_arguments] registers: the [Arguments] node for the
    catch-all names, the parameter node for the others. *)
Inductive local :=
| ArgumentsNode
| ParamNode (p : param).

(** [register_arguments(func, args)] with a list [args]: the calls
    [func.set_local(name, node)] it makes, in order. *)
Fixpoint register_param (arg : param) : list (string * local) :=
  match arg with
  | Param name => [(name, ParamNode arg)]
  | TupleParam elts =>
      (fix over (l : list param) : list (string * local) :=
         match l with
         | [] => []
         | a :: rest => register_param a ++ over rest
         end) elts
  end.

Definition register_params (args : list param) : list (string * local) :=
  a ← args; register_param a.

(** [register_arguments(func)]: an empty name is false in a condition. *)
Definition register_arguments (self : Arguments) : list (string * local) :=
  match vararg self with
  | Some v => if decide (v = "") then [] else [(v, ArgumentsNode)]
  | None => []
  end ++
  match kwarg self with
  | Some v => if decide (v = "") then [] else [(v, ArgumentsNode)]
  | None => []
  end ++
  register_params (args self).

End Raw.

(** ** Building modules ([astroid/builder.py]) *)
Module Builder.

(** [s.endswith(suffix)] *)
Definition endswith (s suffix : string) : bool :=
  let n := String.length s in
  let m := String.length suffix in
  bool_decide (m <= n) && String.eqb (String.substring (n - m) m s) suffix.

(** [s[:-k]] *)
Definition drop_last (k : nat) (s : string) : string :=
  String.substring 0 (String.length s - k) s.

(** [s.find(sub) > -1] *)
Definition found (s sub : string) : bool :=
  match String.index 0 sub s with
  | Some _ => true
  | None => false
  end.

(** [AstroidBuilder._data_build]: the module name and the package flag it
    hands to the tree rebuilder.  In [path and ... or False] a missing or
    empty path is false. *)
Definition _data_build (modname : string) (path : option string)
  : string * bool :=
  if endswith modname ".__init__" then (drop_last 9 modname, true)
  else (modname,
        match path with
        | None => false
        | Some p => if decide (p = "") then false else found p "__init__.py"
        end).

Section delayed_assignments.
Context {A : Type} `{EqDecision A}.
(** [node.frame().name] *)
Context (frame_name : A -> string).

(** [delayed_assignments]: what the body of the loop over the inferred
    owners does to the list [values] of the attribute, for the assignment
    [node]. *)
Definition delay (node : A) (values : list A) : list A :=
  if bool_decide (node ∈ values) then values
  else
    match values with
    | first :: _ =>
        if bool_decide (frame_name node = "__init__")
           && negb (bool_decide (frame_name first = "__init__"))
        then node :: values
        else values ++ [node]
    | [] => values ++ [node]
    end.
End delayed_assignments.

End Builder.

(** ** Hooks for the builtins ([astroid/brain/builtin_inference.py]) *)
Module Brain.
Import Infer.

(** What a hook does: it returns a value, raises [UseInferenceDefault], or
    raises another exception. *)
Inductive hook (A : Type) :=
| Value (a : A)
| UseInferenceDefault
| Raised (e : exn).
Arguments Value {A} a.
Arguments UseInferenceDefault {A}.
Arguments Raised {A} e.

(** The classes a call of [list] or [tuple] builds.  Sets and frozen sets
    are not among the nodes modelled. *)
Inductive klass := ListClass | TupleClass.

Definition isinstance (arg : node) (k : klass) : bool :=
  match k, arg with
  | ListClass, List _ | TupleClass, Tuple _ => true
  | _, _ => false
  end.

(** [klass()] and [klass.from_constants(elts)] *)
Definition empty (k : klass) : node :=
  match k with ListClass => List [] | TupleClass => Tuple [] end.

Definition from_constants (k : klass) (elts : list pyval) : node :=
  match k with
  | ListClass => List_from_constants (Some elts)
  | TupleClass => Tuple_from_constants (Some elts)
  end.

(** [elt.value] for the elements that are [Const] nodes; [None] when one
    is not. *)
Fixpoint values_of (elts : list node) : option (list pyval) :=
  match elts with
  | [] => Some []
  | Const value :: rest => cons value <$> values_of rest
  | _ :: _ => None
  end.

(** [list(s)], [tuple(s)] on a string: its characters. *)
Fixpoint characters (s : string) : list pyval :=
  match s with
  | EmptyString => []
  | String c rest => VStr (String c EmptyString) :: characters rest
  end.

(** [_generic_transform]; [None] when it returns nothing.  [build_elts]
    is [list] or [tuple], which keep the order of the elements. *)
Definition _generic_transform (arg : node) (k : klass) (iterables : list klass)
  : hook (option node) :=
  if isinstance arg k then Value (Some arg)
  else
    match arg with
    | List elts | Tuple elts =>
        if existsb (isinstance arg) iterables then
          match values_of elts with
          | Some elts => Value (Some (from_constants k elts))
          | None => UseInferenceDefault
          end
        else Value None
    | Dict items =>
        match values_of items.*1 with
        | Some elts => Value (Some (from_constants k elts))
        | None => UseInferenceDefault
        end
    | Const (VStr s) => Value (Some (from_constants k (characters s)))
    | _ => Value None
    end.

Section with_infer.
Context (infer : node -> option InferenceContext -> outcome gen).

(** [_generic_inference], for the positional arguments [args] of the call.
    [except (InferenceError, StopIteration)] also catches the subclasses of
    [InferenceError]. *)
Definition _generic_inference (args : list node)
  (context : option InferenceContext) (node_type : klass)
  (transform : node -> hook (option node)) : hook node :=
  match args with
  | [] => Value (empty node_type)
  | [arg] =>
      match transform arg with
      | Value (Some transformed) => Value transformed
      | Value None =>
          match (g ← infer arg context; next g) with
          | Exc e =>
              if is_InferenceError e || bool_decide (e = StopIteration)
              then UseInferenceDefault else Raised e
          | Ret YES => UseInferenceDefault
          | Ret (Inferred inferred_) =>
              match transform inferred_ with
              | Value (Some transformed) => Value transformed
              | Value None => UseInferenceDefault
              | UseInferenceDefault => UseInferenceDefault
              | Raised e => Raised e
              end
          end
      | UseInferenceDefault => UseInferenceDefault
      | Raised e => Raised e
      end
  | _ => UseInferenceDefault
  end.

(** [_infer_builtin] *)
Definition _infer_builtin (args : list node)
  (context : option InferenceContext) (k : klass) (iterables : list klass)
  : hook node :=
  _generic_inference args context k
    (fun arg => _generic_transform arg k iterables).

(** [infer_tuple] and [infer_list], with the iterables that are among
    the nodes modelled. *)
Definition infer_tuple (args : list node) (context : option InferenceContext)
  : hook node :=
  _infer_builtin args context TupleClass [ListClass].

Definition infer_list (args : list node) (context : option InferenceContext)
  : hook node :=
  _infer_builtin args context ListClass [TupleClass].
End with_infer.

(** A constant that [const_factory] gives back as a [Const] node. *)
Definition scalar (v : pyval) : bool :=
  match v with
  | VEmptyTuple | VEmptyDict => false
  | _ => true
  end.

End Brain.

(** * Theorems *)

(** ** Mutual exclusivity *)
Module FlowTheory.
Import Flow.

Section exclusivity.
Context (t : tree) (exceptions : option (list string)).

(** The index of [stmt1]'s parents leaves alone every node that is at
    least as deep as [stmt1]. *)
Lemma index_parents_deeper (p : node) (acc : gmap node node) (n : node) :
  length p <= length n -> index_parents p acc !! n = acc !! n.
Proof.
  revert acc. induction p as [|s up IH]; intros acc Hlen;
    cbn [index_parents length] in *.
  - reflexivity.
  - rewrite IH by lia. apply lookup_insert_ne.
    intros ->. lia.
Qed.

(** Each proper ancestor of [stmt1] is mapped to the child that leads
    to [stmt1]. *)
Lemma index_parents_ancestor (l : list step) (s : step) (c : node)
  (acc : gmap node node) :
  index_parents (l ++ s :: c) acc !! c = Some (s :: c).
Proof.
  revert acc. induction l as [|x l IH]; intros acc; cbn [app index_parents].
  - rewrite index_parents_deeper by lia. apply lookup_insert_eq.
  - apply IH.
Qed.

Lemma index_parents_inv (p : node) (acc : gmap node node) (n c : node) :
  index_parents p acc !! n = Some c ->
  acc !! n = Some c \/ exists l s, p = l ++ s :: n /\ c = s :: n.
Proof.
  revert acc. induction p as [|x up IH]; intros acc H;
    cbn [index_parents] in *.
  - by left.
  - destruct (IH _ H) as [Hin | (l & s & -> & ->)].
    + destruct (decide (up = n)) as [->|Hne].
      * rewrite lookup_insert_eq in Hin. inversion Hin; subst.
        right. by exists [], x.
      * rewrite lookup_insert_ne in Hin by done. by left.
    + right. by exists (x :: l), s.
Qed.

Lemma climb_no_parents (p : node) : climb t exceptions ∅ p = Ret false.
Proof.
  induction p as [|s up IH]; cbn [climb]; [done|].
  by rewrite lookup_empty.
Qed.

(** Climbing from [stmt2] stops at the first parent found in the index. *)
Lemma climb_until (children : gmap node node) (l2 : list step) (s2 : step)
  (c c1 : node) :
  children !! c = Some c1 ->
  (forall m l', l2 = m ++ l' -> m <> [] -> children !! (l' ++ s2 :: c) = None) ->
  climb t exceptions children (l2 ++ s2 :: c)
  = at_common t exceptions c (s2 :: c) c1.
Proof.
  intros Hc. induction l2 as [|x l2 IH]; intros Hnone; cbn [app climb].
  - by rewrite Hc.
  - rewrite (Hnone [x] l2) by done.
    apply IH. intros m l' -> Hm.
    apply (Hnone (x :: m) l'); done.
Qed.

Lemma meet_sym stmt1 stmt2 c s1 s2 :
  meet stmt1 stmt2 c s1 s2 -> meet stmt2 stmt1 c s2 s1.
Proof.
  intros (l1 & l2 & H1 & H2 & H). exists l2, l1.
  repeat split; try done. destruct H as [H|[H|H]]; auto.
Qed.

Lemma are_exclusive_meet stmt1 stmt2 c s1 s2 :
  meet stmt1 stmt2 c s1 s2 ->
  are_exclusive t stmt1 stmt2 exceptions
  = at_common t exceptions c (s2 :: c) (s1 :: c).
Proof.
  intros (l1 & l2 & -> & -> & Hmeet). unfold are_exclusive.
  apply climb_until.
  - apply index_parents_ancestor.
  - intros m l' -> Hm.
    destruct (index_parents (l1 ++ s1 :: c) ∅ !! (l' ++ s2 :: c))
      as [c'|] eqn:E; [|done].
    exfalso. apply index_parents_inv in E as [E | (l & s & E & _)].
    + by rewrite lookup_empty in E.
    + assert (l1 ++ [s1] = (l ++ s :: l') ++ [s2]) as E'.
      { apply (app_inv_tail c). rewrite <- !app_assoc. simpl.
        rewrite <- ?app_assoc. simpl. exact E. }
      apply app_inj_tail in E' as [E1 E2].
      destruct Hmeet as [H|[H|H]]; [done| |].
      * subst l1. by destruct l.
      * by destruct m.
Qed.

Lemma meet_exists_down (r1 r2 : list step) :
  r1 <> [] -> r2 <> [] ->
  exists c s1 l1 s2 l2, r1 = c ++ s1 :: l1 /\ r2 = c ++ s2 :: l2
                        /\ (s1 <> s2 \/ l1 = [] \/ l2 = []).
Proof.
  revert r2. induction r1 as [|a r1 IH]; intros [|b r2] H1 H2; try done.
  destruct (decide (a = b)) as [->|Hab].
  - destruct r1 as [|a1 r1].
    { exists [], b, [], b, r2. auto. }
    destruct r2 as [|b1 r2].
    { exists [], b, (a1 :: r1), b, []. auto. }
    destruct (IH (b1 :: r2)) as (c & s1 & l1 & s2 & l2 & E1 & E2 & H); try done.
    exists (b :: c), s1, l1, s2, l2. simpl. rewrite E1, E2. auto.
  - exists [], a, r1, b, r2. auto.
Qed.

Lemma meet_exists (stmt1 stmt2 : node) :
  stmt1 <> [] -> stmt2 <> [] -> exists c s1 s2, meet stmt1 stmt2 c s1 s2.
Proof.
  intros H1 H2.
  destruct (meet_exists_down (rev stmt1) (rev stmt2))
    as (c & s1 & l1 & s2 & l2 & E1 & E2 & H).
  - intros E. apply H1. by rewrite <- (rev_involutive stmt1), E.
  - intros E. apply H2. by rewrite <- (rev_involutive stmt2), E.
  - exists (rev c), s1, s2, (rev l1), (rev l2).
    rewrite <- (rev_involutive stmt1), <- (rev_involutive stmt2), E1, E2.
    rewrite !rev_app_distr. simpl. rewrite <- !app_assoc. simpl.
    repeat split; try done.
    destruct H as [H | [-> | ->]]; auto.
Qed.

Lemma locate_in_exc owner s fs e :
  locate_in owner s fs = Exc e -> e = AstroidError.
Proof.
  induction fs as [|[g [c|cs|]] fs IH]; cbn [locate_in]; intros H.
  - by inversion H.
  - case_decide; [done|auto].
  - destruct s as [f [i|]]; [|auto].
    repeat case_decide; try done; auto.
  - auto.
Qed.

Lemma locate_child_exc owner c e :
  locate_child t owner c = Exc e -> e = AstroidError.
Proof.
  unfold locate_child. destruct c as [|s up]; [by inversion 1|].
  destruct (deref t owner); [|by inversion 1].
  case_decide; [apply locate_in_exc|by inversion 1].
Qed.

(** What is decided at the common parent does not depend on which of
    the two children is called [previous]. *)
Lemma at_common_sym (n a b : node) :
  at_common t exceptions n a b = at_common t exceptions n b a.
Proof.
  unfold at_common.
  destruct (kind_at t n) as [k|]; [|done].
  destruct (locate_child t n a) as [[xa ya]|ea] eqn:Ea;
    destruct (locate_child t n b) as [[xb yb]|eb] eqn:Eb;
    try (apply locate_child_exc in Ea as ->);
    try (apply locate_child_exc in Eb as ->);
    destruct k; destruct exceptions as [names|]; try done; cbn.
  all: try (f_equal; apply bool_decide_ext; naive_solver).
  all: repeat case_decide; try congruence; try done.
  all: destruct (String.eqb xa "body"), (String.eqb xa "handlers"),
         (String.eqb xa "orelse"), (String.eqb xb "body"),
         (String.eqb xb "handlers"), (String.eqb xb "orelse"); cbn;
       try done;
       try (f_equal; apply bool_decide_ext; naive_solver);
       repeat match goal with
              | |- context [catch ?t ?h ?e] => destruct (catch t h e)
              end; done.
Qed.
End exclusivity.

(** Swapping the two statements does not change the answer. *)
Lemma are_exclusive_swap (t : tree) (a b : node)
  (exceptions : option (list string)) :
  are_exclusive t a b exceptions = are_exclusive t b a exceptions.
Proof.
  destruct a as [|sa a].
  { unfold are_exclusive at 1. cbn [index_parents].
    rewrite climb_no_parents. by destruct b. }
  destruct b as [|sb b].
  { unfold are_exclusive at 2. cbn [index_parents].
    by rewrite climb_no_parents. }
  destruct (meet_exists (sa :: a) (sb :: b)) as (c & s1 & s2 & Hm); try done.
  rewrite (are_exclusive_meet t exceptions _ _ _ _ _ Hm).
  rewrite (are_exclusive_meet t exceptions _ _ _ _ _ (meet_sym _ _ _ _ _ Hm)).
  apply at_common_sym.
Qed.

(** C5. [are_exclusive(a, b) == are_exclusive(b, a)]: for every tree,
    every two nodes of it and every value of the exception names argument,
    the two calls return the same boolean (or raise the same error). *)
Theorem are_exclusive_sym (t : tree) (a b : node)
  (exceptions : option (list string)) :
  are_exclusive t a b exceptions = are_exclusive t b a exceptions.
Proof. apply are_exclusive_swap. Qed.

End FlowTheory.
Module TryExceptTheory.
Import Flow FlowTheory.

Lemma descend_app (t : tree) (l1 l2 : list step) :
  descend t (l1 ++ l2) = o ← descend t l1; descend o l2.
Proof.
  revert t. induction l1 as [|s l1 IH]; intros t; cbn [app descend]; [done|].
  destruct (child t s) as [c|]; cbn; [apply IH|done].
Qed.

Lemma deref_cons (t : tree) (s : step) (n : node) :
  deref t (s :: n) = o ← deref t n; child o s.
Proof.
  unfold deref. cbn [rev]. rewrite descend_app.
  destruct (descend t (rev n)) as [o|]; cbn; [|done].
  by destruct (child o s).
Qed.

Section try_except.
Context (t : tree) (exceptions : option (list string)).
Context (c : node) (ln : option Z) (body handlers orelse : list tree).
Hypothesis Hshape : deref t c = Some (TryExcept_node ln body handlers orelse).

Lemma locate_body i :
  i < length body ->
  locate_child t c (("body", Some i) :: c) = Ret ("body", LocSeq c "body").
Proof.
  intros Hi. unfold locate_child. rewrite Hshape.
  rewrite decide_True by done. cbn.
  repeat case_decide; done || lia.
Qed.

Lemma locate_handlers i :
  i < length handlers ->
  locate_child t c (("handlers", Some i) :: c)
  = Ret ("handlers", LocSeq c "handlers").
Proof.
  intros Hi. unfold locate_child. rewrite Hshape.
  rewrite decide_True by done. cbn.
  repeat case_decide; done || lia.
Qed.

Lemma locate_orelse i :
  i < length orelse ->
  locate_child t c (("orelse", Some i) :: c) = Ret ("orelse", LocSeq c "orelse").
Proof.
  intros Hi. unfold locate_child. rewrite Hshape.
  rewrite decide_True by done. cbn.
  repeat case_decide; done || lia.
Qed.

Lemma kind_at_try : kind_at t c = Some TryExcept.
Proof. unfold kind_at. by rewrite Hshape. Qed.

(** A handler catches everything when no exception names are given. *)
Lemma catch_unconditional i :
  i < length handlers -> catch t (("handlers", Some i) :: c) None = true.
Proof.
  intros Hi. unfold catch. rewrite deref_cons, Hshape. cbn.
  destruct (lookup_lt_is_Some_2 handlers i Hi) as [h Hh].
  assert (child (TryExcept_node ln body handlers orelse) ("handlers", Some i)
          = Some h) as -> by exact Hh.
  by destruct (getattr h "type") as [[]|].
Qed.

Lemma at_try_handler_body i j :
  i < length handlers -> j < length body ->
  at_common t exceptions c (("body", Some j) :: c) (("handlers", Some i) :: c)
  = Ret (catch t (("handlers", Some i) :: c) exceptions).
Proof.
  intros Hi Hj. unfold at_common.
  rewrite kind_at_try, locate_body, locate_handlers by done. cbn.
  rewrite decide_True by congruence. by rewrite !orb_false_r.
Qed.

Lemma at_try_handler_orelse i j :
  i < length handlers -> j < length orelse ->
  at_common t exceptions c (("orelse", Some j) :: c) (("handlers", Some i) :: c)
  = Ret true.
Proof.
  intros Hi Hj. unfold at_common.
  rewrite kind_at_try, locate_orelse, locate_handlers by done. cbn.
  by rewrite decide_True by congruence.
Qed.

Lemma at_try_handlers i j :
  i < length handlers -> j < length handlers ->
  at_common t exceptions c (("handlers", Some j) :: c) (("handlers", Some i) :: c)
  = Ret (bool_decide (i <> j)).
Proof.
  intros Hi Hj. unfold at_common.
  rewrite kind_at_try, !locate_handlers by done. cbn.
  rewrite decide_False by (intros H; by apply H).
  f_equal. apply bool_decide_ext. naive_solver.
Qed.
(** What a handler catches is read from its [type] field. *)
Lemma catch_handler i h :
  handlers !! i = Some h ->
  catch t (("handlers", Some i) :: c) exceptions
  = match getattr h "type", exceptions with
    | None, _ | Some Absent, _ | _, None => true
    | Some x, Some names =>
        existsb (fun n => bool_decide (n ∈ names)) (names_of_field x)
    end.
Proof.
  intros Hh. unfold catch. rewrite deref_cons, Hshape. cbn.
  by assert (child (TryExcept_node ln body handlers orelse) ("handlers", Some i)
             = Some h) as -> by exact Hh.
Qed.
End try_except.

Lemma existsb_Exists (names l : list string) :
  existsb (fun n => bool_decide (n ∈ names)) l
  = bool_decide (Exists (fun n => n ∈ names) l).
Proof.
  induction l as [|n l IH]; cbn [existsb].
  - symmetry. apply bool_decide_eq_false. rewrite Exists_nil. tauto.
  - rewrite IH. apply eq_true_iff_eq.
    rewrite orb_true_iff, !bool_decide_eq_true, Exists_cons. done.
Qed.

Lemma names_of_names (ln : option Z) (es : list string) :
  names_of_field (Many ((fun e => Node (Name e) ln []) <$> es)) = es.
Proof.
  cbn [names_of_field]. induction es as [|e es IH]; [done|].
  cbn [fmap list_fmap names_of app]. cbn [fmap] in IH. by rewrite IH.
Qed.

(** C6. Two statements whose nearest common ancestor is a try/except
    construct: (a) one in the try body and one in a handler are exclusive
    exactly when the handler catches one of the exception names, and always
    when no names are given; a handler without a type catches every name, a
    handler with a type catches the names of the [Name] nodes of its type
    (for [except E] the name [E], for [except (E1, ..., Ek)] each of the
    names); (b) one in a handler and one in the else clause are exclusive;
    (c) statements of two distinct handlers are exclusive; (d) two statements
    that reach the construct through the same handler are not exclusive.
    Each holds for both orders of the arguments. *)
Theorem are_exclusive_try_except (t : tree) (exceptions : option (list string))
  (stmt1 stmt2 c : node) (s1 s2 : step)
  (ln : option Z) (body handlers orelse : list tree) :
  deref t c = Some (TryExcept_node ln body handlers orelse) ->
  meet stmt1 stmt2 c s1 s2 ->
  (forall i j, s1 = ("handlers", Some i) -> s2 = ("body", Some j) ->
     i < length handlers -> j < length body ->
     are_exclusive t stmt1 stmt2 exceptions = Ret (catch t (s1 :: c) exceptions)
     /\ are_exclusive t stmt2 stmt1 exceptions = Ret (catch t (s1 :: c) exceptions)
     /\ catch t (s1 :: c) None = true
     /\ forall h, handlers !! i = Some h ->
          (getattr h "type" = None \/ getattr h "type" = Some Absent ->
           are_exclusive t stmt1 stmt2 exceptions = Ret true
           /\ are_exclusive t stmt2 stmt1 exceptions = Ret true)
          /\ (forall x names,
                getattr h "type" = Some x -> x <> Absent ->
                exceptions = Some names ->
                are_exclusive t stmt1 stmt2 exceptions
                = Ret (bool_decide (Exists (fun n => n ∈ names)
                                      (names_of_field x)))
                /\ are_exclusive t stmt2 stmt1 exceptions
                   = Ret (bool_decide (Exists (fun n => n ∈ names)
                                         (names_of_field x))))
          /\ (forall e ln' names,
                getattr h "type" = Some (One (Node (Name e) ln' [])) ->
                exceptions = Some names ->
                are_exclusive t stmt1 stmt2 exceptions
                = Ret (bool_decide (e ∈ names))
                /\ are_exclusive t stmt2 stmt1 exceptions
                   = Ret (bool_decide (e ∈ names)))
          /\ (forall es ln' ln'' names,
                getattr h "type"
                = Some (One (Tuple_node ln'
                               ((fun e => Node (Name e) ln'' []) <$> es))) ->
                exceptions = Some names ->
                are_exclusive t stmt1 stmt2 exceptions
                = Ret (bool_decide (Exists (fun n => n ∈ names) es))
                /\ are_exclusive t stmt2 stmt1 exceptions
                   = Ret (bool_decide (Exists (fun n => n ∈ names) es))))
  /\ (forall i j, s1 = ("handlers", Some i) -> s2 = ("orelse", Some j) ->
        i < length handlers -> j < length orelse ->
        are_exclusive t stmt1 stmt2 exceptions = Ret true
        /\ are_exclusive t stmt2 stmt1 exceptions = Ret true)
  /\ (forall i j, s1 = ("handlers", Some i) -> s2 = ("handlers", Some j) ->
        i < length handlers -> j < length handlers -> i <> j ->
        are_exclusive t stmt1 stmt2 exceptions = Ret true
        /\ are_exclusive t stmt2 stmt1 exceptions = Ret true)
  /\ (forall i, s1 = ("handlers", Some i) -> s2 = ("handlers", Some i) ->
        i < length handlers ->
        are_exclusive t stmt1 stmt2 exceptions = Ret false
        /\ are_exclusive t stmt2 stmt1 exceptions = Ret false).
Proof.
  intros Hshape Hmeet.
  pose proof (are_exclusive_meet t exceptions _ _ _ _ _ Hmeet) as E.
  pose proof (are_exclusive_swap t stmt2 stmt1 exceptions) as Esym.
  rewrite Esym, E. clear E Esym.
  split; [|repeat split; subst s1 s2].
  - intros i j -> -> Hi Hj.
    erewrite at_try_handler_body by done.
    split; [done|]. split; [done|].
    split; [by eapply catch_unconditional|].
    intros h Hh.
    rewrite (catch_handler t exceptions c ln body handlers orelse Hshape i h Hh).
    split; [|split; [|split]].
    + by intros [-> | ->].
    + intros x names -> Hx ->. rewrite existsb_Exists. by destruct x.
    + intros e ln' names -> ->. cbn. rewrite orb_false_r. done.
    + intros es ln' ln'' names -> ->. rewrite existsb_Exists.
      change (names_of_field (One (Tuple_node ln'
                ((fun e => Node (Name e) ln'' []) <$> es))))
        with (names_of_field (Many ((fun e => Node (Name e) ln'' []) <$> es))
              ++ []).
      by rewrite app_nil_r, names_of_names.
  - by eapply at_try_handler_orelse.
  - by eapply at_try_handler_orelse.
  - erewrite at_try_handlers by done. by rewrite bool_decide_true.
  - erewrite at_try_handlers by done. by rewrite bool_decide_true.
  - erewrite at_try_handlers by done. by rewrite bool_decide_false by auto.
  - erewrite at_try_handlers by done. by rewrite bool_decide_false by auto.
Qed.

(** In [try: risky() except ValueError: x = 1 else: x = 2] the two [x]
    bindings are exclusive; the call in the body and the binding in the
    handler are exclusive for the name [ValueError] and not for [OSError]. *)
Lemma are_exclusive_try_except_witness :
  (are_exclusive try_example try_x1 try_x2 None = Ret true
   /\ are_exclusive try_example try_x2 try_x1 None = Ret true)
  /\ are_exclusive try_example try_x1 try_call (Some ["ValueError"]) = Ret true
  /\ are_exclusive try_example try_x1 try_call (Some ["OSError"]) = Ret false.
Proof.
  assert (meet try_x1 try_call try_node ("handlers", Some 0) ("body", Some 0))
    as Hmeet.
  { exists [("targets", Some 0); ("body", Some 0)], [].
    repeat split. left. discriminate. }
  assert (0 < 1) as Hlt by lia.
  split; [|split].
  - destruct (are_exclusive_try_except try_example None try_x1 try_x2 try_node
                ("handlers", Some 0) ("orelse", Some 0)
                (Some 1%Z) _ _ _ eq_refl) as (_ & Hb & _).
    + exists [("targets", Some 0); ("body", Some 0)], [("targets", Some 0)].
      repeat split. left. discriminate.
    + apply (Hb 0 0 eq_refl eq_refl); simpl; lia.
  - destruct (are_exclusive_try_except try_example (Some ["ValueError"])
                try_x1 try_call try_node
                ("handlers", Some 0) ("body", Some 0)
                (Some 1%Z) _ _ _ eq_refl Hmeet) as (Ha & _).
    destruct (Ha 0 0 eq_refl eq_refl Hlt Hlt) as (_ & _ & _ & Hh).
    destruct (Hh _ eq_refl) as (_ & _ & Hname & _).
    exact (proj1 (Hname "ValueError" (Some 3%Z) ["ValueError"] eq_refl eq_refl)).
  - destruct (are_exclusive_try_except try_example (Some ["OSError"])
                try_x1 try_call try_node
                ("handlers", Some 0) ("body", Some 0)
                (Some 1%Z) _ _ _ eq_refl Hmeet) as (Ha & _).
    destruct (Ha 0 0 eq_refl eq_refl Hlt Hlt) as (_ & _ & _ & Hh).
    destruct (Hh _ eq_refl) as (_ & _ & Hname & _).
    exact (proj1 (Hname "ValueError" (Some 3%Z) ["OSError"] eq_refl eq_refl)).
Defined.

End TryExceptTheory.
Module FilterTheory.
Import Flow FlowTheory.

Lemma statement_is_statement (t : tree) (n m : node) :
  statement t n = Ret m -> has_kind t is_statement m = true.
Proof.
  induction n as [|s up IH]; cbn [statement].
  - destruct (has_kind t is_statement []) eqn:E; [|done].
    by intros [= <-].
  - destruct (has_kind t is_statement (s :: up)) eqn:E; [|done].
    by intros [= <-].
Qed.

Section loop.
Context (t : tree) (self mystmt : node) (mylineno : Z).
Hypothesis Hmystmt : statement t self = Ret mystmt.

Local Abbreviation stable := (survives_alone t self mystmt mylineno).

Lemma hook_cases (atype n : node) (S : list node) r :
  _get_filtered_stmts t atype self n S mystmt = Ret r ->
  (r = (S, false)
   /\ forall S2, _get_filtered_stmts t atype self n S2 mystmt = Ret (S2, false))
  \/ r = (S, true)
  \/ (r = ([n], true)
      /\ forall S2, _get_filtered_stmts t atype self n S2 mystmt = Ret ([n], true)).
Proof.
  unfold _get_filtered_stmts, Comprehension_get_filtered_stmts,
    AssignTypeMixin_get_filtered_stmts.
  destruct (has_kind t (fun k => bool_decide (k = Comprehension)) atype) eqn:Ek.
  - destruct (decide (atype = mystmt)) as [->|Hne].
    + exfalso. pose proof (statement_is_statement _ _ _ Hmystmt) as Hs.
      unfold has_kind in *. destruct (kind_at t mystmt) as [k|]; [|done].
      apply bool_decide_eq_true in Ek. by subst k.
    + destruct (statement t atype) as [s|e]; [|done]. cbn.
      destruct (decide (s = mystmt)); intros [= <-]; auto.
  - destruct (decide (atype = mystmt)) as [->|Hne].
    + intros [= <-]. auto.
    + destruct (statement t atype) as [s|e]; [|done]. cbn.
      destruct (decide (s = mystmt)); intros [= <-]; auto.
Qed.

Lemma keep_cases n ps opt (S : list node) (P : list (option node)) S' P' :
  keep t self mystmt n ps opt S P = Ret (S', P') ->
  (S' = S \/ S' = [])
  \/ (exists S0, (S0 = S \/ S0 = []) /\ S' = S0 ++ [n]
                 /\ keep t self mystmt n ps opt [] [] = Ret ([n], [ps])).
Proof.
  unfold keep.
  destruct (is_AssignName t n);
    [destruct (negb opt && bool_decide (ps = parent mystmt))
    |destruct (is_DelName t n)];
    cbn; try (intros [= <- <-]; by auto);
    destruct (are_exclusive t self n None) as [[]|]; cbn;
    try done; intros [= <- <-]; eauto 10.
Qed.

Lemma filter_loop_stable (stmts S : list node) (P : list (option node)) out :
  Forall stable S ->
  filter_loop t self mystmt mylineno stmts S P = Ret out ->
  Forall stable out.
Proof.
  revert S P. induction stmts as [|n rest IH]; intros S P HS.
  { cbn. by intros [= <-]. }
  cbn [filter_loop].
  destruct (statement t n) as [stmt|] eqn:Es; [cbn|done].
  destruct (bool_decide (mylineno > 0)%Z
            && lineno_gt (fromlineno t stmt) mylineno) eqn:Eline.
  { by intros [= <-]. }
  destruct (assign_type t n) as [atype|] eqn:Eat; [cbn|done].
  destruct (has_base n self) eqn:Ehb.
  { by intros [= <-]. }
  destruct (_get_filtered_stmts t atype self n S mystmt) as [r|] eqn:Eh;
    [cbn|done].
  assert ((forall S2, _get_filtered_stmts t atype self n S2 mystmt
                      = Ret (S2, false)) ->
          (optional_assign t atype && parent_of atype self = true
           \/ keep t self mystmt n (parent stmt) (optional_assign t atype) [] []
              = Ret ([n], [parent stmt])) ->
          stable n) as Hstable.
  { intros Hg Hk. unfold survives_alone. cbn [filter_loop].
    rewrite Es. cbn. rewrite Eline, Eat. cbn. rewrite Ehb, Hg. cbn.
    destruct (optional_assign t atype && parent_of atype self); [done|].
    destruct Hk as [|Hk]; [done|]. cbn. by rewrite Hk. }
  destruct (hook_cases _ _ _ _ Eh) as [[-> Hg] | [-> | [-> Hg]]].
  - destruct (optional_assign t atype && parent_of atype self) eqn:Eopt.
    { apply IH. repeat constructor. apply Hstable; auto. }
    assert (forall S1 P1,
               Forall stable S1 ->
               (st ← keep t self mystmt n (parent stmt)
                      (optional_assign t atype) S1 P1;
                filter_loop t self mystmt mylineno rest st.1 st.2) = Ret out ->
               Forall stable out) as Hkeep.
    { intros S1 P1 HS1.
      destruct (keep t self mystmt n (parent stmt) (optional_assign t atype)
                  S1 P1) as [[S' P']|] eqn:Ek; [cbn|done].
      apply IH.
      destruct (keep_cases _ _ _ _ _ _ _ Ek)
        as [[-> | ->] | (S0 & HS0 & -> & Hk)]; auto.
      apply Forall_app. split.
      - destruct HS0 as [-> | ->]; auto.
      - repeat constructor. apply Hstable; auto. }
    destruct (index (parent stmt) P) as [pindex|]; [|by apply Hkeep].
    destruct (S !! pindex) as [prev|]; [|done].
    destruct (assign_type t prev) as [patype|]; [cbn|done].
    destruct (parent_of patype atype); [by apply IH|].
    destruct (optional_assign t atype); cbn.
    { by apply Hkeep. }
    destruct (are_exclusive t prev n None) as [[]|]; cbn; [| |done].
    + by apply Hkeep.
    + apply Hkeep. by apply Forall_delete.
  - by intros [= <-].
  - intros [= <-]. repeat constructor.
    unfold survives_alone. cbn [filter_loop].
    rewrite Es. cbn. rewrite Eline, Eat. cbn. by rewrite Ehb, Hg.
Qed.

Lemma filter_loop_survivors (stmts : list node) out n :
  filter_loop t self mystmt mylineno stmts [] [] = Ret out ->
  n ∈ out ->
  filter_loop t self mystmt mylineno [n] [] [] = Ret [n].
Proof.
  intros H Hn. apply filter_loop_stable in H; [|constructor].
  rewrite Forall_forall in H. by apply H.
Qed.
End loop.

(** The bindings the filter keeps for the names of the one-line
    examples: none for the [x] on the right of [x = x]; for two statements
    on one line, the binding in the other statement. *)
Lemma lookups :
  _filter_stmts self_example (value_of_stmt 0) [target_of 0] [] 0 = Ret []
  /\ _filter_stmts mutual_example (value_of_stmt 0) [target_of 1] [] 0
     = Ret [target_of 1]
  /\ _filter_stmts mutual_example (value_of_stmt 1) [target_of 0] [] 0
     = Ret [target_of 0]
  /\ _filter_stmts cycle_example (value_of_stmt 0) [target_of 1] [] 0
     = Ret [target_of 1]
  /\ _filter_stmts cycle_example cycle_key [target_of 0] [] 0
     = Ret [target_of 0].
Proof. repeat split; vm_compute; reflexivity. Qed.




End FilterTheory.
(** ** Argument binding *)
Module CallTheory.
Import Infer.

Section binding.
Context (infer : node -> option InferenceContext -> outcome gen).
Context (iter_node : node -> outcome gen).
Context (self : CallContext) (funcnode : Function) (name : string)
        (context : InferenceContext).

(** Step 1: a keyword argument named like the parameter is inferred,
    whatever the positional arguments are. *)
Lemma infer_argument_keyword (n : node) :
  nargs self !! name = Some n ->
  infer n (Some context) <> Exc KeyError ->
  infer_argument infer iter_node self funcnode name context
  = infer n (Some context).
Proof.
  intros Hn Hk. unfold infer_argument. rewrite Hn.
  destruct (infer n (Some context)) as [g|[]]; done.
Qed.

Lemma from_position_falls_through :
  no_positional infer self funcnode name context ->
  from_position infer iter_node self funcnode name context
  = from_dstarargs infer iter_node self funcnode name context.
Proof.
  unfold no_positional, from_position.
  destruct ((find_argname (fargs funcnode) name false).1) as [i|]; [|done].
  intros (Hfirst & Hargs & Hstar).
  destruct (bool_decide (i = 0)
            && (bool_decide (type funcnode = "method")
                || bool_decide (type funcnode = "classmethod"))) eqn:E.
  - apply andb_true_iff in E as [E1 E2].
    apply bool_decide_eq_true in E1. destruct (Hfirst E1) as [H1 H2].
    apply orb_true_iff in E2 as [E2|E2];
      apply bool_decide_eq_true in E2; done.
  - rewrite Hargs. unfold from_starargs. by rewrite Hstar.
Qed.

Lemma infer_argument_declaration :
  nargs self !! name = None ->
  no_positional infer self funcnode name context ->
  from_expansion infer (dstarargs self) (VStr name) context = Ret None ->
  infer_argument infer iter_node self funcnode name context
  = from_declaration infer iter_node funcnode name context.
Proof.
  intros Hn Hpos Hd. unfold infer_argument. rewrite Hn.
  rewrite from_position_falls_through by done.
  unfold from_dstarargs. by rewrite Hd.
Qed.

(** X27. Step 6: a declared parameter for which the call gives no
    keyword, no positional argument and nothing through its starred and
    double-starred arguments, and which is not a catch-all name, is bound to
    the inference of its default value. *)
Lemma infer_argument_default (d : node) :
  nargs self !! name = None ->
  no_positional infer self funcnode name context ->
  from_expansion infer (dstarargs self) (VStr name) context = Ret None ->
  Some name <> vararg (fargs funcnode) ->
  Some name <> kwarg (fargs funcnode) ->
  default_value (fargs funcnode) name = Ret d ->
  infer d (Some context) <> Exc NoDefault ->
  infer_argument infer iter_node self funcnode name context
  = infer d (Some context).
Proof.
  intros Hn Hpos Hd Hv Hk Hdef Hnd.
  rewrite infer_argument_declaration by done.
  unfold from_declaration. rewrite !decide_False by done. rewrite Hdef. cbn.
  destruct (infer d (Some context)) as [g|[]]; done.
Qed.
End binding.

(** C3, as the code has it: [f()] for [def f(x)] fails with
    [InferenceError]; the [NoDefault] of [default_value] is caught and
    replaced. *)
Lemma infer_argument_no_default_error :
  infer_argument (infer no_bindings 2) iter_object
    (mkCallContext [] None None) (plain [Param "x"] None None) "x" fresh
  <> Exc NoDefault.
Proof. vm_compute. discriminate. Qed.

(** C3, amended.  For a parameter without declared default, when the call
    supplies no keyword, positional, star-expansion or double-star-expansion
    value for it, the parameter is not the implicit first parameter of a
    method or class method, and the name is not a catch-all parameter of the
    function, [infer_argument] fails with [InferenceError]. *)
Theorem infer_argument_no_default
  (infer : node -> option InferenceContext -> outcome gen)
  (iter_node : node -> outcome gen)
  (self : CallContext) (funcnode : Function) (name : string)
  (context : InferenceContext) :
  nargs self !! name = None ->
  no_positional infer self funcnode name context ->
  from_expansion infer (dstarargs self) (VStr name) context = Ret None ->
  Some name <> vararg (fargs funcnode) ->
  Some name <> kwarg (fargs funcnode) ->
  default_value (fargs funcnode) name = Exc NoDefault ->
  infer_argument infer iter_node self funcnode name context
  = Exc InferenceError.
Proof.
  intros Hn Hpos Hd Hv Hk Hdef.
  rewrite infer_argument_declaration by done.
  unfold from_declaration. rewrite !decide_False by done. by rewrite Hdef.
Qed.

Lemma infer_argument_no_default_witness :
  infer_argument (infer no_bindings 2) iter_object
    (mkCallContext [] None None) (plain [Param "x"] None None) "x" fresh
  = Exc InferenceError.
Proof.
  apply infer_argument_no_default.
  - reflexivity.
  - vm_compute. repeat split; discriminate.
  - reflexivity.
  - discriminate.
  - discriminate.
  - reflexivity.
Defined.


(** C8, as the code has it.  For [def g] with the catch-all positional
    parameter [args] called as [g()], and for [def h] with the catch-all
    keyword parameter [kw] called as [h()], [infer_argument] returns
    [iter(node)] of the empty tuple (mapping) node itself, where the claim
    has a sequence that yields the node: a node object is not iterable. *)
Theorem infer_argument_catch_all_iterates_node :
  (forall iter_node,
     infer_argument (infer no_bindings 2) iter_node
       (mkCallContext [] None None) (plain [] (Some "args") None) "args" fresh
     = iter_node (Tuple []))
  /\ (forall iter_node,
        infer_argument (infer no_bindings 2) iter_node
          (mkCallContext [] None None) (plain [] None (Some "kw")) "kw" fresh
        = iter_node (Dict []))
  /\ infer_argument (infer no_bindings 2) iter_object
       (mkCallContext [] None None) (plain [] (Some "args") None) "args" fresh
     = Exc TypeError
  /\ infer_argument (infer no_bindings 2) iter_object
       (mkCallContext [] None None) (plain [] None (Some "kw")) "kw" fresh
     = Exc TypeError.
Proof. repeat split. Qed.

(** The general form: when no earlier rule applies, the catch-all names
    give [iter] of the node built by [const_factory]. *)
Lemma infer_argument_catch_all
  (infer : node -> option InferenceContext -> outcome gen)
  (iter_node : node -> outcome gen)
  (self : CallContext) (funcnode : Function) (name : string)
  (context : InferenceContext) :
  nargs self !! name = None ->
  no_positional infer self funcnode name context ->
  from_expansion infer (dstarargs self) (VStr name) context = Ret None ->
  (Some name = vararg (fargs funcnode) ->
   infer_argument infer iter_node self funcnode name context
   = iter_node (Tuple []))
  /\ (Some name <> vararg (fargs funcnode) ->
      Some name = kwarg (fargs funcnode) ->
      infer_argument infer iter_node self funcnode name context
      = iter_node (Dict [])).
Proof.
  intros Hn Hpos Hd.
  rewrite infer_argument_declaration by done.
  unfold from_declaration. split.
  - intros Hv. by rewrite decide_True.
  - intros Hv Hk. by rewrite decide_False, decide_True.
Qed.

(** C2, as the code has it.  For [def m(self, y=5)] of class [A]:
    [A().m()] binds [y] to 5 and [A().m(y=10)] to 10, but [A().m(10)] binds
    [y] to the default 5: the declared index of [y] is 1 and the only
    positional argument of the call has index 0. *)
Theorem infer_argument_method_positional :
  infer_argument (infer no_bindings 2) iter_object
    (mkCallContext [] None None) method_m "y" bound_to_A
  = Ret (iter [Inferred (Const (VInt 5))])
  /\ infer_argument (infer no_bindings 2) iter_object
       (mkCallContext [Positional (Const (VInt 10))] None None)
       method_m "y" bound_to_A
     = Ret (iter [Inferred (Const (VInt 5))])
  /\ infer_argument (infer no_bindings 2) iter_object
       (mkCallContext [Keyword "y" (Const (VInt 10))] None None)
       method_m "y" bound_to_A
     = Ret (iter [Inferred (Const (VInt 10))])
  /\ infer_argument (infer no_bindings 2) iter_object
       (mkCallContext [Positional (Const (VInt 7)); Keyword "y" (Const (VInt 10))]
          None None)
       method_m "y" bound_to_A
     = Ret (iter [Inferred (Const (VInt 10))]).
Proof. repeat split; vm_compute; reflexivity. Qed.

(** In a method the positional argument that binds a parameter is read
    at the declared index, which counts the receiver. *)
Lemma infer_argument_method_index
  (infer : node -> option InferenceContext -> outcome gen)
  (iter_node : node -> outcome gen)
  (self : CallContext) (funcnode : Function) (name : string)
  (context : InferenceContext) (argindex : nat) (a : node) :
  nargs self !! name = None ->
  (find_argname (fargs funcnode) name false).1 = Some (S argindex) ->
  cargs self !! argindex = Some a ->
  cargs self !! S argindex = None ->
  starargs self = None ->
  infer_argument infer iter_node self funcnode name context
  = from_dstarargs infer iter_node self funcnode name context.
Proof.
  intros Hn Hi Ha Hnone Hs. unfold infer_argument, from_position.
  rewrite Hn, Hi. cbn. rewrite Hnone. unfold from_starargs. by rewrite Hs.
Qed.

End CallTheory.
(** ** [Dict.getitem] *)
Module DictTheory.
Import Infer.

Section getitem.
Context (infer : node -> option InferenceContext -> outcome gen).
Context (context : option InferenceContext) (lookup_key : pyval).

Lemma Dict_getitem_skip (pre rest : list (node * node)) :
  Forall (misses infer context lookup_key) pre ->
  Dict_getitem infer (pre ++ rest) lookup_key context
  = Dict_getitem infer rest lookup_key context.
Proof.
  induction 1 as [|[k v] pre (vs & Hk & Hvs) _ IH]; cbn [app Dict_getitem];
    [done|].
  cbn in Hk. rewrite Hk. cbn. by rewrite Hvs.
Qed.
End getitem.

(** C10, as the code has it: a key whose inference raises makes
    [getitem] raise that exception, here [InferenceError] for the key
    [1 < 2], although no item matches. *)
Lemma Dict_getitem_key_error :
  getitem (infer no_bindings 1) (Dict [(Compare 1, Const (VInt 1))]) (VStr "a") None
  = Exc InferenceError
  /\ getitem (infer no_bindings 1)
       (Dict [(Compare 1, Const (VInt 1)); (Const (VStr "a"), Const (VInt 2))])
       (VStr "a") None
     = Exc InferenceError.
Proof. split; reflexivity. Qed.

(** C10, amended.  As long as the inference of the keys examined ends
    without an exception: [getitem] returns the value of the first item one
    of whose inferred keys is a constant equal to the lookup key, keys
    inferred to [YES] being skipped; when no item matches, and on an empty
    dict, it raises [IndexError]. *)
Theorem Dict_getitem_spec
  (infer : node -> option InferenceContext -> outcome gen)
  (context : option InferenceContext) (lookup_key : pyval)
  (pre post : list (node * node)) (key value : node) (g : gen) :
  Forall (misses infer context lookup_key) pre ->
  (infer key context = Ret g ->
   existsb (key_matches lookup_key) g.1 = true ->
   getitem infer (Dict (pre ++ (key, value) :: post)) lookup_key context
   = Ret value)
  /\ getitem infer (Dict pre) lookup_key context = Exc IndexError
  /\ getitem infer (Dict []) lookup_key context = Exc IndexError
  /\ key_matches lookup_key YES = false.
Proof.
  intros Hpre. cbn [getitem]. repeat split.
  - intros Hk Hg. rewrite Dict_getitem_skip by done.
    cbn [Dict_getitem]. rewrite Hk. cbn. by rewrite Hg.
  - rewrite <- (app_nil_r pre). by rewrite Dict_getitem_skip.
Qed.

(** [{b: 0, 'a': 1, 'a': 2}['a']] after [a = b; b = a], where [b] is inferred
    to [YES]. *)
Lemma Dict_getitem_spec_witness :
  getitem (infer mutual_reference 6)
    (Dict [(Name 1 "b", Const (VInt 0)); (Const (VStr "a"), Const (VInt 1));
           (Const (VStr "a"), Const (VInt 2))])
    (VStr "a") None
  = Ret (Const (VInt 1)).
Proof.
  assert (Forall (misses (infer mutual_reference 6) None (VStr "a"))
            [(Name 1 "b", Const (VInt 0))]) as Hpre.
  { repeat constructor. by exists [YES]. }
  apply (proj1 (Dict_getitem_spec (infer mutual_reference 6) None (VStr "a")
                  [(Name 1 "b", Const (VInt 0))]
                  [(Const (VStr "a"), Const (VInt 2))]
                  (Const (VStr "a")) (Const (VInt 1))
                  (infer_end (Const (VStr "a"))) Hpre));
    reflexivity.
Defined.

End DictTheory.
(** ** The inference rules *)
Module InferTheory.
Import Infer.

Lemma infer_S (prog : program) (depth : nat) (n : node)
  (context : option InferenceContext) :
  infer prog (S depth) n context
  = match n with
    | Const _ | List _ | Tuple _ | Dict _
    | Module_ _ _ | Class _ _ | Instance _ => Ret (infer_end n)
    | Name uid _ =>
        path_wrapper (infer_name (infer prog depth) prog) uid n context
    | AssName uid _ =>
        path_wrapper (infer_ass (infer prog depth) prog) uid n context
    | Subscript uid _ _ =>
        path_wrapper
          (fun self c => Ret (infer_subscript (infer prog depth) self c))
          uid n context
    | Compare _ => infer_default n
    end.
Proof. reflexivity. Qed.

Lemma diverges_cases (r : outcome gen) :
  generator r = raising Diverge ->
  r = Exc Diverge \/ r = Ret (raising Diverge).
Proof.
  destruct r as [[vs e]|e]; cbn; intros H; inversion H; subst; auto.
Qed.

Lemma dict_key_cycle_step (depth : nat) :
  generator (infer dict_key_cycle depth dict_key None) = raising Diverge ->
  generator (infer dict_key_cycle (5 + depth) dict_key None) = raising Diverge.
Proof.
  intros H. apply diverges_cases in H. cbn [Nat.add].
  rewrite infer_S. unfold path_wrapper, infer_name, _infer_stmts.
  cbn -[infer]. rewrite infer_S.
  unfold path_wrapper, infer_ass, assigned_stmts. cbn -[infer].
  rewrite infer_S. unfold path_wrapper, infer_name, _infer_stmts.
  cbn -[infer]. rewrite infer_S.
  unfold path_wrapper, infer_ass, assigned_stmts. cbn -[infer].
  rewrite infer_S.
  unfold path_wrapper, infer_subscript. cbn -[infer].
  destruct depth as [|depth]; [reflexivity|].
  rewrite (infer_S _ _ (Const _)). cbn -[infer].
  destruct H as [-> | ->]; reflexivity.
Qed.

(** C1, as the code has it.  In [a = b; b = {a: 1}[0]] the subscript
    calls [Dict.getitem] without the context, so the key [a] is inferred with
    a new, empty path: the inference of [a] re-enters itself at every depth
    and never ends. *)
Theorem infer_dict_key_cycle_diverges (depth : nat) :
  generator (infer dict_key_cycle depth dict_key None) = raising Diverge.
Proof.
  induction depth as [depth IH] using lt_wf_ind.
  destruct depth as [|[|[|[|[|depth]]]]]; [reflexivity..|].
  apply (dict_key_cycle_step depth), IH. lia.
Qed.

(** The cycle guard: a node whose signature is on the path is inferred to
    [YES]. *)
Lemma path_wrapper_reentry (rule : node -> InferenceContext -> outcome gen)
  (uid : nat) (n : node) (context : InferenceContext) :
  signature_of uid context ∈ path context ->
  path_wrapper rule uid n (Some context) = Ret (iter [YES]).
Proof.
  intros H. unfold path_wrapper. cbn [default].
  by rewrite bool_decide_true.
Qed.

(** [x = x]: the name on the right has no binding that reaches it, and
    its inference ends with [UnresolvableName].  [a = b; b = a]: the
    inference of either name ends and yields [YES], at every depth from 6
    on. *)
Lemma infer_self_reference (depth : nat) :
  infer self_reference (1 + depth) (Name 1 "x") None
  = Ret (raising UnresolvableName).
Proof. reflexivity. Qed.

Lemma infer_mutual_reference (depth : nat) :
  infer mutual_reference (6 + depth) (Name 3 "a") None = Ret (iter [YES])
  /\ infer mutual_reference (6 + depth) (Name 1 "b") None = Ret (iter [YES]).
Proof. split; reflexivity. Qed.

End InferTheory.
Module RuleTheory.
Import Infer InferTheory.

(** C4. A name whose lookup gives no binding: [infer_name] raises
    [UnresolvableName] in every context, and so does the inference of the
    node, without a context or with one whose path does not hold the node;
    the result is not an empty sequence. *)
Theorem infer_name_unresolvable (prog : program)
  (infer_ : node -> option InferenceContext -> outcome gen)
  (uid : nat) (name : string) :
  (lookup prog uid name).2 = [] ->
  (forall context,
     infer_name infer_ prog (Name uid name) context = Exc UnresolvableName)
  /\ (forall depth context,
        signature_of uid context ∉ path context ->
        infer prog (S depth) (Name uid name) (Some context)
        = Ret (raising UnresolvableName))
  /\ (forall depth,
        infer prog (S depth) (Name uid name) None
        = Ret (raising UnresolvableName))
  /\ raising UnresolvableName <> iter [].
Proof.
  intros Hl.
  assert (forall i context,
            infer_name i prog (Name uid name) context = Exc UnresolvableName)
    as Hrule.
  { intros i context. unfold infer_name.
    destruct (lookup prog uid name) as [frame stmts]. cbn in Hl. by subst. }
  repeat split.
  - apply Hrule.
  - intros depth context Hpath. rewrite infer_S. unfold path_wrapper.
    cbn [default]. rewrite bool_decide_false by done. by rewrite Hrule.
  - intros depth. rewrite infer_S. unfold path_wrapper.
    cbn [default]. rewrite bool_decide_false by (cbn; apply not_elem_of_nil).
    by rewrite Hrule.
  - discriminate.
Qed.

Lemma infer_name_unresolvable_witness :
  infer no_bindings 1 (Name 1 "x") None = Ret (raising UnresolvableName).
Proof.
  apply (infer_name_unresolvable no_bindings (infer no_bindings 0) 1 "x" eq_refl).
Defined.

(** C7, as the code has it: a subscript with two indices, as the slice
    [[7, 8][0:1]] has, raises [InferenceError]. *)
Lemma infer_subscript_slice_error :
  infer no_bindings 2
    (Subscript 1 (List [Const (VInt 7); Const (VInt 8)])
       [Const (VInt 0); Const (VInt 1)]) None
  = Ret (raising InferenceError).
Proof. reflexivity. Qed.

(** Behind the path wrapper, a subscript that is not on the path is
    inferred by [infer_subscript]. *)
Lemma infer_Subscript (prog : program) (depth uid : nat) (expr : node)
  (subs : list node) (context : InferenceContext) :
  signature_of uid context ∉ path context ->
  infer prog (S depth) (Subscript uid expr subs) (Some context)
  = Ret (infer_subscript (infer prog depth) (Subscript uid expr subs)
           (push (signature_of uid context) context)).
Proof.
  intros Hpath. rewrite infer_S. unfold path_wrapper. cbn [default].
  by rewrite bool_decide_false.
Qed.

(** C7, amended.  (1) A subscript with no index or more than one
    (multi-dimensional, slice) raises [InferenceError].  (2) With one index
    whose first inferred value is [YES] the result is [YES].  (3) With one
    index whose first inferred value is an integer constant, on a list or
    tuple node: when the index is in range the element is extracted and its
    inference is the result; when it is out of range the result is
    [YES]. *)
Theorem infer_subscript_spec
  (infer_ : node -> option InferenceContext -> outcome gen)
  (context : InferenceContext) (uid : nat) (expr : node) :
  (forall subs,
     length subs <> 1 ->
     infer_subscript infer_ (Subscript uid expr subs) context
     = raising InferenceError)
  /\ (forall sub g,
        infer_ sub (Some context) = Ret g -> next g = Ret YES ->
        infer_subscript infer_ (Subscript uid expr [sub]) context = iter [YES])
  /\ (forall sub g elts i,
        infer_ sub (Some context) = Ret g ->
        next g = Ret (Inferred (Const (VInt i))) ->
        expr = List elts \/ expr = Tuple elts ->
        (forall elt,
           py_index elts i = Ret elt ->
           infer_subscript infer_ (Subscript uid expr [sub]) context
           = generator (infer_ elt (Some context)))
        /\ (py_index elts i = Exc IndexError ->
            infer_subscript infer_ (Subscript uid expr [sub]) context
            = iter [YES])).
Proof.
  split; [|split].
  - intros subs Hlen. by destruct subs as [|? [|]].
  - intros sub g Hsub Hnext. cbn [infer_subscript]. rewrite Hsub. cbn.
    by rewrite Hnext.
  - intros sub g elts i Hsub Hnext Hexpr.
    assert (forall r,
              py_index elts i = r ->
              infer_subscript infer_ (Subscript uid expr [sub]) context
              = match r with
                | Ret elt => generator (infer_ elt (Some context))
                | Exc AttributeError => raising InferenceError
                | Exc IndexError | Exc TypeError => iter [YES]
                | Exc e => raising e
                end) as Hindex.
    { intros r <-. cbn [infer_subscript]. rewrite Hsub. cbn.
      rewrite Hnext. cbn. by destruct Hexpr as [-> | ->]. }
    split.
    + intros elt Helt. by rewrite (Hindex _ Helt).
    + intros Helt. by rewrite (Hindex _ Helt).
Qed.

(** [[7, 8][-1]] *)
Lemma infer_subscript_spec_witness :
  infer_subscript (infer no_bindings 1)
    (Subscript 1 (List [Const (VInt 7); Const (VInt 8)]) [Const (VInt (-1))])
    fresh
  = iter [Inferred (Const (VInt 8))].
Proof.
  destruct (infer_subscript_spec (infer no_bindings 1) fresh 1
              (List [Const (VInt 7); Const (VInt 8)])) as (_ & _ & H).
  destruct (H (Const (VInt (-1))) (iter [Inferred (Const (VInt (-1)))])
              [Const (VInt 7); Const (VInt 8)] (-1)%Z
              eq_refl eq_refl (or_introl eq_refl)) as [Hin _].
  apply (Hin (Const (VInt 8))). reflexivity.
Defined.

End RuleTheory.
(** ** Termination where the context is passed on *)
Module TerminationTheory.
Import Infer InferTheory.

Lemma remaining_le (K : list signature) (k : signature) (p : list signature) :
  remaining K (k :: p) <= remaining K p.
Proof.
  unfold remaining. induction K as [|x K IH]; [done|].
  rewrite !filter_cons.
  destruct (decide (x ∉ k :: p)) as [H1|H1];
    destruct (decide (x ∉ p)) as [H2|H2]; cbn; try lia.
  exfalso. apply H2. intros Hx. apply H1. by apply list_elem_of_further.
Qed.

Lemma remaining_push (K : list signature) (k : signature) (p : list signature) :
  k ∈ K -> k ∉ p -> remaining K (k :: p) < remaining K p.
Proof.
  unfold remaining. induction K as [|x K IH]; intros Hk Hp.
  { by apply not_elem_of_nil in Hk. }
  rewrite !filter_cons.
  apply elem_of_cons in Hk as [<- | Hk].
  - rewrite decide_False by (intros H; apply H, list_elem_of_here).
    rewrite decide_True by done. cbn.
    pose proof (remaining_le K k p) as Hle. unfold remaining in Hle. lia.
  - specialize (IH Hk Hp).
    destruct (decide (x ∉ k :: p)) as [H1|H1];
      destruct (decide (x ∉ p)) as [H2|H2]; cbn; try lia.
    exfalso. apply H2. intros Hx. apply H1. by apply list_elem_of_further.
Qed.

Lemma finished_generator (r : outcome gen) :
  finished r <-> finished (Ret (generator r)).
Proof. by destruct r. Qed.

Lemma getitem_without_dict
  (infer_ : node -> option InferenceContext -> outcome gen)
  (expr : node) (v : pyval) :
  match expr with Dict _ => False | _ => True end ->
  match getitem infer_ expr v None with
  | Ret a =>
      is_value a = true
      \/ match expr with
         | List elts | Tuple elts => a ∈ elts
         | _ => False
         end
  | Exc e => e <> Diverge
  end.
Proof.
  assert (forall elts : list node,
            match py_getitem elts v with
            | Ret a => a ∈ elts
            | Exc e => e <> Diverge
            end) as Hseq.
  { intros elts. unfold py_getitem, py_index. destruct v; try done.
    destruct (_ <? 0)%Z; [done|].
    destruct (elts !! _) as [a|] eqn:E; [|done].
    by eapply list_elem_of_lookup_2. }
  destruct expr as [[]| | | | | | | | | |]; cbn; try done; intros _.
  - unfold py_getitem, py_index. destruct v; try done.
    destruct (_ <? 0)%Z; [done|].
    destruct (_ !! _); cbn; auto.
  - specialize (Hseq elts). destruct (py_getitem elts v); auto.
  - specialize (Hseq elts). destruct (py_getitem elts v); auto.
Qed.

Lemma infer_stmts_finished
  (infer_ : node -> option InferenceContext -> outcome gen)
  (context : InferenceContext) (stmts : list inferred) (seen : bool) :
  (forall s, Inferred s ∈ stmts -> finished (infer_ s (Some context))) ->
  finished (Ret (_infer_stmts_from infer_ stmts context seen)).
Proof.
  revert seen. induction stmts as [|[|stmt] stmts IH]; intros seen Hs.
  - cbn. destruct seen; split; cbn; by try constructor.
  - cbn [_infer_stmts_from].
    destruct (IH true) as [He Hv].
    { intros s H. by apply Hs, list_elem_of_further. }
    destruct (_infer_stmts_from infer_ stmts context true) as [ws e].
    split; cbn in *; [done|by constructor].
  - cbn [_infer_stmts_from].
    destruct (Hs stmt) as [He Hv]; [apply list_elem_of_here|].
    destruct (generator (infer_ stmt (Some context))) as [vs e]. cbn in He, Hv.
    assert (forall b, finished (Ret (_infer_stmts_from infer_ stmts context b)))
      as Hrest.
    { intros b. apply IH. intros s H. by apply Hs, list_elem_of_further. }
    destruct e as [e|].
    + destruct e; try (split; cbn; done).
      * destruct (Hrest true) as [He' Hv'].
        destruct (_infer_stmts_from infer_ stmts context true) as [ws e'].
        split; cbn in *; [done|].
        apply Forall_app. split; [done|by constructor].
      * destruct (Hrest (seen || negb (bool_decide (vs = [])))) as [He' Hv'].
        destruct (_infer_stmts_from infer_ stmts context _) as [ws e'].
        split; cbn in *; [done|]. by apply Forall_app.
    + destruct (Hrest (seen || negb (bool_decide (vs = [])))) as [He' Hv'].
      destruct (_infer_stmts_from infer_ stmts context _) as [ws e'].
      split; cbn in *; [done|]. by apply Forall_app.
Qed.

Section termination.
Context (prog : program) (U : list node) (context0 : InferenceContext).
Hypothesis Hclosed : closed prog U.

Local Abbreviation K := (signatures U context0).

Lemma signature_known (n : node) (uid : nat) (context : InferenceContext) :
  compatible U context0 context -> n ∈ U -> wrapped_uid n = Some uid ->
  signature_of uid context ∈ K.
Proof.
  intros (Hb & Hc & Hl) Hn Hu. unfold signatures, signature_of.
  rewrite Hb, Hc.
  apply list_elem_of_bind. exists uid. split.
  - apply list_elem_of_bind. exists (lookupname context). split; [|done].
    apply list_elem_of_here.
  - apply list_elem_of_omap. by exists n.
Qed.

Lemma compatible_push (k : signature) (context : InferenceContext) :
  compatible U context0 context -> compatible U context0 (push k context).
Proof. done. Qed.

Lemma infer_finishes (depth : nat) :
  forall (n : node) (context : InferenceContext),
    compatible U context0 context ->
    n ∈ U \/ is_value n = true ->
    remaining K (path context) + 2 <= depth ->
    finished (infer prog depth n (Some context)).
Proof.
  induction depth as [|depth IH]; [lia|].
  intros n context Hc Hn Hd. rewrite infer_S.
  assert (forall uid, wrapped_uid n = Some uid -> n ∈ U ->
            signature_of uid context ∉ path context ->
            forall (m : node) (c : InferenceContext),
              path c = signature_of uid context :: path context ->
              compatible U context0 c ->
              m ∈ U \/ is_value m = true ->
              finished (infer prog depth m (Some c))) as Hrec.
  { intros uid Hu HU Hpath m c Hp Hcc Hm. apply IH; try done.
    rewrite Hp.
    pose proof (remaining_push K _ _ (signature_known n uid context Hc HU Hu)
                  Hpath). lia. }
  destruct n as [v|elts|elts|items|uid name|uid name|uid expr subs|uid|?|?|?];
    try (split; cbn; by repeat constructor).
  - (* Name *)
    destruct Hn as [Hn|?]; [|done].
    unfold path_wrapper. cbn [default].
    case_bool_decide as Hpath; [split; cbn; by repeat constructor|].
    specialize (Hrec uid eq_refl Hn Hpath).
    apply finished_generator. rewrite <- finished_generator.
    unfold infer_name.
    pose proof (closed_lookup _ _ Hclosed uid name) as Hl.
    destruct (lookup prog uid name) as [frame stmts]. cbn in Hl.
    destruct stmts as [|s0 stmts]; [split; cbn; by repeat constructor|].
    apply infer_stmts_finished. intros s Hs.
    apply list_elem_of_fmap in Hs as (s' & [= <-] & Hs).
    apply Hrec; [done| |left; by apply Hl].
    destruct Hc as (Hb & Hcc & _). repeat split; try done.
    cbn. apply list_elem_of_further, list_elem_of_omap. by exists (Name uid name).
  - (* AssName *)
    destruct Hn as [Hn|?]; [|done].
    unfold path_wrapper. cbn [default].
    case_bool_decide as Hpath; [split; cbn; by repeat constructor|].
    specialize (Hrec uid eq_refl Hn Hpath).
    apply finished_generator. rewrite <- finished_generator.
    unfold infer_ass, assigned_stmts.
    pose proof (closed_assigned _ _ Hclosed uid name) as Ha.
    destruct (assigned_value prog uid) as [value|];
      [|split; cbn; by repeat constructor].
    destruct (Hrec value (push (signature_of uid context) context))
      as [He Hv]; [done|by apply compatible_push|left; by apply Ha|].
    destruct (infer prog depth value _) as [[vs e]|e]; cbn in *.
    + destruct e as [e|]; [split; cbn; by repeat constructor|].
      apply infer_stmts_finished. intros s Hs.
      apply Hrec; [done|by apply compatible_push|right].
      rewrite Forall_forall in Hv. by apply (Hv (Inferred s)).
    + split; cbn; by repeat constructor.
  - (* Subscript *)
    destruct Hn as [Hn|?]; [|done].
    unfold path_wrapper. cbn [default].
    case_bool_decide as Hpath; [split; cbn; by repeat constructor|].
    specialize (Hrec uid eq_refl Hn Hpath).
    apply finished_generator. rewrite <- finished_generator.
    cbn [generator]. unfold infer_subscript.
    pose proof (closed_subs _ _ Hclosed uid expr subs) as Hsubs.
    pose proof (closed_elts _ _ Hclosed uid expr subs Hn) as Helts.
    destruct subs as [|sub [|]]; try (split; cbn; by repeat constructor).
    destruct (Hrec sub (push (signature_of uid context) context))
      as [He Hv]; [done|by apply compatible_push
                  |left; apply Hsubs; [done|apply list_elem_of_here]|].
    destruct (infer prog depth sub _) as [[[|index vs] e]|e]; cbn in *.
    + destruct e as [[]|]; split; cbn; by repeat constructor.
    + destruct index as [|index]; [split; cbn; by repeat constructor|].
      destruct index; cbn; try (split; cbn; by repeat constructor).
      pose proof (getitem_without_dict (infer prog depth) expr value) as Hg.
      destruct (getitem (infer prog depth) expr value None) as [a|err].
      * apply finished_generator. rewrite <- finished_generator.
        apply Hrec; [done|by apply compatible_push|].
        destruct Hg as [Hg|Hg]; [by destruct expr|by right|].
        left. destruct expr; try done; by apply Helts.
      * assert (err <> Diverge) as Herr by (apply Hg; by destruct expr).
        destruct err; split; cbn; by repeat constructor.
    + destruct e; split; cbn; by repeat constructor.
Qed.
End termination.

Lemma infer_without_context (prog : program) (depth : nat) (n : node)
  (context : option InferenceContext) :
  infer prog depth n context
  = infer prog depth n (Some (default fresh context)).
Proof. destruct depth, context; try done; by destruct n. Qed.

(** X28. Where no subscript is on a dict node, the inference of every
    node ends, with or without a context: from some depth on the result is a
    sequence of values that ends by exhaustion or by a Python exception. *)
Theorem infer_terminates (prog : program) (U : list node) (n : node)
  (context : option InferenceContext) :
  closed prog U -> n ∈ U ->
  exists depth, forall d, depth <= d -> finished (infer prog d n context).
Proof.
  intros Hclosed Hn.
  exists (remaining (signatures U (default fresh context))
            (path (default fresh context)) + 2).
  intros d Hd. rewrite infer_without_context.
  apply (infer_finishes prog U (default fresh context)); auto.
  repeat split. apply list_elem_of_here.
Qed.

(** The nodes of [a = b; b = a] are such a set. *)
Lemma infer_terminates_witness :
  exists depth, forall d, depth <= d ->
    finished (infer mutual_reference d (Name 3 "a") None).
Proof.
  apply (infer_terminates mutual_reference
           [Name 1 "b"; AssName 2 "a"; Name 3 "a"; AssName 4 "b"]).
  - split.
    + intros uid name s Hn Hs.
      repeat (apply elem_of_cons in Hn as [Hn | Hn]);
        try (by apply not_elem_of_nil in Hn); try discriminate;
        injection Hn as -> ->; cbn in Hs;
        apply list_elem_of_singleton in Hs as ->; repeat constructor.
    + intros uid name v Hn Hv.
      repeat (apply elem_of_cons in Hn as [Hn | Hn]);
        try (by apply not_elem_of_nil in Hn); try discriminate;
        injection Hn as -> ->; cbn in Hv; injection Hv as <-;
        repeat constructor.
    + intros uid expr subs s Hn.
      repeat (apply elem_of_cons in Hn as [Hn | Hn]);
        try (by apply not_elem_of_nil in Hn); discriminate.
    + intros uid expr subs Hn.
      repeat (apply elem_of_cons in Hn as [Hn | Hn]);
        try (by apply not_elem_of_nil in Hn); discriminate.
  - repeat constructor.
Defined.

End TerminationTheory.

(** ** Mutual exclusivity: the other common parents *)
Module ExclusiveTheory.
Import Flow FlowTheory TryExceptTheory.

(** A child that exists is found by [locate_child]. *)
Lemma locate_in_child (owner : node) (s : step) (fs : list (string * field))
  (k : kind) (ln : option Z) (x : tree) :
  child (Node k ln fs) s = Some x ->
  exists r, locate_in owner s fs = Ret r.
Proof.
  unfold child, getattr. cbn [tree_fields]. destruct s as [f i]. cbn [fst snd].
  induction fs as [|[g y] fs IH]; cbn [assoc locate_in]; [done|].
  case_decide as Hg.
  - subst g. destruct y as [c'|cs|]; destruct i as [i|]; try done.
    + intros _. rewrite decide_True by done. eauto.
    + intros Hi. apply lookup_lt_Some in Hi.
      rewrite decide_True by done. rewrite decide_True by done. eauto.
  - intros H. destruct (IH H) as [r Hr].
    destruct y as [c'|cs|]; [| |eauto].
    + rewrite decide_False by congruence. eauto.
    + destruct i as [i|]; [|eauto]. rewrite decide_False by congruence. eauto.
Qed.

Lemma locate_child_valid (t : tree) (s : step) (c : node) :
  is_Some (deref t (s :: c)) ->
  exists r, locate_child t c (s :: c) = Ret r.
Proof.
  intros [x Hx]. rewrite deref_cons in Hx.
  unfold locate_child. destruct (deref t c) as [[k ln fs]|]; [|done].
  cbn in Hx. rewrite decide_True by done.
  by eapply locate_in_child.
Qed.

Section if_branches.
Context (t : tree) (c : node) (ln : option Z) (test : tree)
  (body orelse : list tree).
Hypothesis Hshape : deref t c = Some (If_node ln test body orelse).

Lemma locate_if (s : step) :
  is_Some (child (If_node ln test body orelse) s) ->
  locate_child t c (s :: c)
  = Ret (s.1, match s.2 with
              | None => LocNode (s :: c)
              | Some _ => LocSeq c s.1
              end).
Proof.
  intros [x Hx]. unfold locate_child. rewrite Hshape.
  rewrite decide_True by done. destruct s as [f [i|]].
  - unfold child, getattr in Hx. cbn in Hx. cbn.
    repeat case_decide; subst; try done.
    all: apply lookup_lt_Some in Hx; lia.
  - unfold child, getattr in Hx. cbn in Hx. cbn.
    repeat case_decide; subst; try done; congruence.
Qed.
End if_branches.

(** X1. Two nodes whose nearest common ancestor is an [If]: when no
    exception names are given they are exclusive exactly when they reach the
    [If] through different fields (the test, the body, the else branch); when
    exception names are given the [If] is discarded and they are never
    exclusive. *)
Theorem are_exclusive_if (t : tree) (stmt1 stmt2 c : node) (s1 s2 : step)
  (ln : option Z) (test : tree) (body orelse : list tree) :
  deref t c = Some (If_node ln test body orelse) ->
  meet stmt1 stmt2 c s1 s2 ->
  is_Some (child (If_node ln test body orelse) s1) ->
  is_Some (child (If_node ln test body orelse) s2) ->
  are_exclusive t stmt1 stmt2 None = Ret (bool_decide (s1.1 <> s2.1))
  /\ forall names, are_exclusive t stmt1 stmt2 (Some names) = Ret false.
Proof.
  intros Hshape Hmeet H1 H2. split; [|intros names].
  all: rewrite (are_exclusive_meet _ _ _ _ _ _ _ Hmeet); unfold at_common, kind_at;
    rewrite Hshape; cbn [fmap option_fmap option_map tree_kind If_node].
  2: done.
  rewrite !(locate_if t c ln test body orelse Hshape) by done. cbn.
  f_equal. apply bool_decide_ext.
  destruct H1 as [x1 H1], H2 as [x2 H2].
  destruct s1 as [f1 [i1|]], s2 as [f2 [i2|]]; cbn [fst snd];
    unfold child, getattr in H1, H2; cbn in H1, H2;
    repeat case_decide; subst; try done; split; congruence.
Qed.

(** In [if a: x = 1 else: x = 2] the two bindings are exclusive. *)
Lemma are_exclusive_if_witness :
  are_exclusive if_example if_x1 if_x2 None = Ret true
  /\ are_exclusive if_example if_x1 if_x2 (Some ["ValueError"]) = Ret false.
Proof.
  destruct (are_exclusive_if if_example if_x1 if_x2 if_node
              ("body", Some 0) ("orelse", Some 0)
              (Some 1%Z) (leaf (Name "a") 1) [assign_x 2] [assign_x 4] eq_refl)
    as [Ha Hb].
  - exists [("targets", Some 0)], [("targets", Some 0)].
    repeat split. left. discriminate.
  - by eexists.
  - by eexists.
  - split; [exact Ha | apply Hb].
Defined.

(** X2. Two nodes whose nearest common ancestor is neither an [If] nor a
    [TryExcept] (a module, a function, a loop, ...) are not exclusive,
    whatever the exception names. *)
Theorem are_exclusive_other_parent (t : tree) (stmt1 stmt2 c : node)
  (s1 s2 : step) (exceptions : option (list string)) :
  meet stmt1 stmt2 c s1 s2 ->
  kind_at t c <> Some If -> kind_at t c <> Some TryExcept ->
  are_exclusive t stmt1 stmt2 exceptions = Ret false.
Proof.
  intros Hmeet Hif Htry.
  rewrite (are_exclusive_meet _ _ _ _ _ _ _ Hmeet). unfold at_common.
  destruct (kind_at t c) as [[]|]; try done; by destruct exceptions.
Qed.

(** In [loop_example] the first binding of [x], inside the [if], and the
    use of [x] after it meet at the module. *)
Lemma are_exclusive_other_parent_witness :
  are_exclusive loop_example loop_x1 loop_use None = Ret false.
Proof.
  apply (are_exclusive_other_parent loop_example loop_x1 loop_use []
           ("body", Some 0) ("body", Some 1) None).
  - exists [("targets", Some 0); ("body", Some 0)], [("value", None)].
    repeat split. left. discriminate.
  - discriminate.
  - discriminate.
Defined.

(** X3. A node of the tree is exclusive neither with itself nor with a
    node below it, whatever the kind of its parent and the exception
    names. *)
Theorem are_exclusive_ancestor (t : tree) (a : node) (l : list step)
  (exceptions : option (list string)) :
  is_Some (deref t a) ->
  are_exclusive t a (l ++ a) exceptions = Ret false
  /\ are_exclusive t (l ++ a) a exceptions = Ret false.
Proof.
  intros Ha. rewrite (are_exclusive_swap t (l ++ a) a). split; [|].
  all: destruct a as [|s c];
    [unfold are_exclusive; cbn [index_parents]; apply climb_no_parents|].
  all: rewrite (are_exclusive_meet t exceptions (s :: c) (l ++ s :: c) c s s)
    by (exists [], l; auto).
  all: destruct (locate_child_valid t s c Ha) as [[f loc] Hr].
  all: unfold at_common; rewrite Hr; cbn.
  all: destruct (kind_at t c) as [[]|]; try done; destruct exceptions; try done.
  all: cbn; rewrite ?bool_decide_false by auto; try done.
  all: rewrite decide_False by auto.
  all: destruct (String.eqb f "handlers"); cbn; try done.
  all: by rewrite bool_decide_false by auto.
Qed.

(** The handler of [try_example] and the binding inside it. *)
Lemma are_exclusive_ancestor_witness :
  are_exclusive try_example
    [("handlers", Some 0); ("body", Some 0)] try_x1 None = Ret false.
Proof.
  apply (are_exclusive_ancestor try_example
           [("handlers", Some 0); ("body", Some 0)]
           [("targets", Some 0); ("body", Some 0)] None).
  by eexists.
Defined.

(** X4. Around a try/except construct, the body and the else clause
    are not alternatives: a statement of the body and a statement of the else
    clause are not exclusive, nor are two statements of the body, nor two of
    the else clause. *)
Theorem are_exclusive_try_body_orelse (t : tree)
  (exceptions : option (list string)) (stmt1 stmt2 c : node)
  (f1 f2 : string) (i j : nat)
  (ln : option Z) (body handlers orelse : list tree) :
  deref t c = Some (TryExcept_node ln body handlers orelse) ->
  meet stmt1 stmt2 c (f1, Some i) (f2, Some j) ->
  (f1 = "body" /\ i < length body) \/ (f1 = "orelse" /\ i < length orelse) ->
  (f2 = "body" /\ j < length body) \/ (f2 = "orelse" /\ j < length orelse) ->
  are_exclusive t stmt1 stmt2 exceptions = Ret false.
Proof.
  intros Hshape Hmeet H1 H2.
  rewrite (are_exclusive_meet _ _ _ _ _ _ _ Hmeet). unfold at_common.
  rewrite (kind_at_try t c ln body handlers orelse Hshape).
  destruct H1 as [[-> H1] | [-> H1]], H2 as [[-> H2] | [-> H2]].
  all: rewrite ?(locate_body t c ln body handlers orelse Hshape) by done.
  all: rewrite ?(locate_orelse t c ln body handlers orelse Hshape) by done.
  all: cbn; by repeat case_decide.
Qed.

(** The call in the body of [try_example] and the binding of its else
    clause. *)
Lemma are_exclusive_try_body_orelse_witness :
  are_exclusive try_example [("body", Some 0); ("body", Some 0)] try_x2 None
  = Ret false.
Proof.
  apply (are_exclusive_try_body_orelse try_example None _ _ try_node
           "body" "orelse" 0 0 (Some 1%Z) _ _ _ eq_refl).
  - exists [], [("targets", Some 0)]. repeat split. left. discriminate.
  - left. split; [done | simpl; lia].
  - right. split; [done | simpl; lia].
Defined.

End ExclusiveTheory.

(** ** The statement filter: what it returns and where it stops *)
Module FilterOrderTheory.
Import Flow FlowTheory FilterTheory.

Section loop.
Context (t : tree) (self mystmt : node) (mylineno : Z).
Hypothesis Hmystmt : statement t self = Ret mystmt.

(** The candidates kept so far are a subsequence of the candidates
    visited so far. *)
Lemma filter_loop_sublist (stmts pre S : list node) (P : list (option node))
  (out : list node) :
  sublist S pre ->
  filter_loop t self mystmt mylineno stmts S P = Ret out ->
  sublist out (pre ++ stmts).
Proof.
  revert pre S P. induction stmts as [|n rest IH]; intros pre S P HS.
  { cbn. intros [= <-]. by rewrite app_nil_r. }
  assert (sublist S (pre ++ n :: rest)) as Hbreak.
  { by apply sublist_inserts_r. }
  assert (sublist [n] (pre ++ [n])) as Hn.
  { apply sublist_inserts_l. reflexivity. }
  assert (forall out, sublist out (pre ++ [n] ++ rest) ->
                      sublist out (pre ++ n :: rest)) as Hshift by done.
  cbn [filter_loop].
  destruct (statement t n) as [stmt|] eqn:Es; [cbn|done].
  destruct (bool_decide (mylineno > 0)%Z
            && lineno_gt (fromlineno t stmt) mylineno).
  { by intros [= <-]. }
  destruct (assign_type t n) as [atype|] eqn:Eat; [cbn|done].
  destruct (has_base n self).
  { by intros [= <-]. }
  destruct (_get_filtered_stmts t atype self n S mystmt) as [r|] eqn:Eh;
    [cbn|done].
  assert (forall S1 P1,
             sublist S1 pre ->
             (st ← keep t self mystmt n (parent stmt)
                    (optional_assign t atype) S1 P1;
              filter_loop t self mystmt mylineno rest st.1 st.2) = Ret out ->
             sublist out (pre ++ n :: rest)) as Hkeep.
  { intros S1 P1 HS1.
    destruct (keep t self mystmt n (parent stmt) (optional_assign t atype)
                S1 P1) as [[S' P']|] eqn:Ek; [cbn|done].
    intros H. apply Hshift. rewrite app_assoc. revert H. apply IH.
    destruct (keep_cases _ _ _ _ _ _ _ _ _ _ Ek)
      as [[-> | ->] | (S0 & HS0 & -> & Hk)].
    - by apply sublist_inserts_r.
    - apply sublist_nil_l.
    - apply sublist_app; [|reflexivity].
      destruct HS0 as [-> | ->]; [done|apply sublist_nil_l]. }
  destruct (hook_cases _ _ _ Hmystmt _ _ _ _ Eh) as [[-> Hg] | [-> | [-> Hg]]].
  - destruct (optional_assign t atype && parent_of atype self).
    { intros H. apply Hshift. rewrite app_assoc. revert H. by apply IH. }
    destruct (index (parent stmt) P) as [pindex|]; [|by apply Hkeep].
    destruct (S !! pindex) as [prev|]; [|done].
    destruct (assign_type t prev) as [patype|]; [cbn|done].
    destruct (parent_of patype atype).
    { intros H. apply Hshift. rewrite app_assoc. revert H. apply IH.
      by apply sublist_inserts_r. }
    destruct (optional_assign t atype); cbn.
    { by apply Hkeep. }
    destruct (are_exclusive t prev n None) as [[]|]; cbn; [| |done].
    + by apply Hkeep.
    + apply Hkeep. etrans; [apply sublist_delete|done].
  - by intros [= <-].
  - intros [= <-]. apply sublist_inserts_l. by apply sublist_skip, sublist_nil_l.
Qed.
End loop.

(** X5. The filter only selects: the candidates it returns are a
    subsequence of the candidates it was given, so none is added, repeated or
    moved. *)
Theorem filter_stmts_sublist (t : tree) (self : node) (stmts : list node)
  (frame_ : node) (offset : Z) (out : list node) :
  _filter_stmts t self stmts frame_ offset = Ret out ->
  sublist out stmts.
Proof.
  unfold _filter_stmts.
  destruct (myframe_of t self offset) as [myframe|]; [cbn|done].
  destruct (negb (bool_decide (myframe = frame_)) || bool_decide (self = frame_)).
  { by intros [= <-]. }
  destruct (statement t self) as [mystmt|] eqn:Es; [cbn|done].
  intros H. eapply (filter_loop_sublist _ _ _ _ Es _ []) in H; [done|].
  apply sublist_nil_l.
Qed.

(** Of the three bindings of [loop_example], the two the filter keeps
    come in the order they were given. *)
Lemma filter_stmts_sublist_witness :
  sublist [loop_x2; loop_x3] [loop_x1; loop_x2; loop_x3].
Proof.
  apply (filter_stmts_sublist loop_example loop_use _ [] 0).
  vm_compute. reflexivity.
Defined.

(** The loop never looks past a candidate whose statement starts after
    the line of the lookup. *)
Lemma filter_loop_line_cut (t : tree) (self mystmt : node) (mylineno : Z)
  (pre : list node) (n : node) (rest : list node)
  (S : list node) (P : list (option node)) (stmt : node) :
  statement t n = Ret stmt ->
  bool_decide (mylineno > 0)%Z && lineno_gt (fromlineno t stmt) mylineno = true ->
  filter_loop t self mystmt mylineno (pre ++ n :: rest) S P
  = filter_loop t self mystmt mylineno pre S P.
Proof.
  intros Es Eline. revert S P.
  induction pre as [|a pre IH]; intros S P; cbn [app filter_loop].
  { rewrite Es. cbn. by rewrite Eline. }
  destruct (statement t a) as [sa|]; [cbn|done].
  destruct (bool_decide (mylineno > 0)%Z
            && lineno_gt (fromlineno t sa) mylineno); [done|].
  destruct (assign_type t a) as [atype|]; [cbn|done].
  destruct (has_base a self); [done|].
  destruct (_get_filtered_stmts t atype self a S mystmt) as [[S1 []]|];
    cbn; try done.
  destruct (optional_assign t atype && parent_of atype self); [apply IH|].
  destruct (index (parent sa) P) as [pindex|].
  2: { destruct (keep t self mystmt a (parent sa) (optional_assign t atype) S1 P)
         as [[S2 P2]|]; cbn; [apply IH|done]. }
  destruct (S1 !! pindex) as [prev|]; [|done].
  destruct (assign_type t prev) as [patype|]; [cbn|done].
  destruct (parent_of patype atype); [apply IH|].
  destruct (if optional_assign t atype then Ret true
            else are_exclusive t prev a None) as [excl|]; [cbn|done].
  destruct (if negb excl then (delete pindex S1, delete pindex P) else (S1, P))
    as [S2 P2].
  destruct (keep t self mystmt a (parent sa) (optional_assign t atype) S2 P2)
    as [[S3 P3]|]; cbn; [apply IH|done].
Qed.

(** X6. When the lookup is filtered in its own frame and its statement
    has a line number, the candidates are cut at the first one whose statement
    starts after the line of the lookup (shifted by [offset]): that candidate
    and all that follow change nothing in the result. *)
Theorem filter_stmts_line_cut (t : tree) (self : node)
  (pre : list node) (n : node) (rest : list node) (frame_ : node) (offset : Z)
  (mystmt stmt : node) (l ln : Z) :
  myframe_of t self offset = Ret frame_ -> self <> frame_ ->
  statement t self = Ret mystmt -> fromlineno t mystmt = Some l ->
  statement t n = Ret stmt -> fromlineno t stmt = Some ln ->
  (0 < l + offset < ln)%Z ->
  _filter_stmts t self (pre ++ n :: rest) frame_ offset
  = _filter_stmts t self pre frame_ offset.
Proof.
  intros Hf Hne Hmy Hl Hn Hln Hlt. unfold _filter_stmts.
  rewrite Hf. cbn.
  rewrite bool_decide_true by done. rewrite bool_decide_false by done. cbn.
  rewrite Hmy. cbn. apply (filter_loop_line_cut _ _ _ _ _ _ _ _ _ stmt Hn).
  unfold mylineno_of. rewrite Hl, Hln. cbn.
  by rewrite !bool_decide_true by lia.
Qed.

(** Seen from the [y] of [for x in y] on line 3 of [loop_example], the
    assignment of line 4 is not looked at. *)
Lemma filter_stmts_line_cut_witness :
  _filter_stmts loop_example loop_iter [loop_x1; loop_x3] [] 0
  = _filter_stmts loop_example loop_iter [loop_x1] [] 0.
Proof.
  apply (filter_stmts_line_cut loop_example loop_iter [loop_x1] loop_x3 [] [] 0
           [("body", Some 1); ("body", Some 0)]
           [("body", Some 2); ("body", Some 0)] 3 4);
    try reflexivity; try discriminate. lia.
Defined.

End FilterOrderTheory.

(** ** Declared parameters and their defaults *)
Module ArgumentsTheory.
Import Infer.

(** A non-negative index reads the list from the front. *)
Lemma py_index_nat {A} (l : list A) (i : Z) :
  (0 <= i)%Z ->
  py_index l i = match l !! Z.to_nat i with
                 | Some x => Ret x
                 | None => Exc IndexError
                 end.
Proof.
  intros Hi. unfold py_index. cbv zeta.
  destruct (i <? 0)%Z eqn:E; [apply Z.ltb_lt in E; lia|].
  by rewrite E.
Qed.

Lemma find_arg_rec_false (start : nat) (argname : string) (l : list param) :
  _find_arg_rec start argname false l = _find_arg_from start argname l.
Proof.
  revert start. induction l as [|[name|elts] l IH]; intros start;
    cbn [_find_arg_rec _find_arg_from]; [done| |done].
  by case_decide.
Qed.

(** The enumeration stops at the first parameter with the name. *)
Lemma find_arg_from_spec (start : nat) (argname : string) (l : list param) :
  match _find_arg_from start argname l with
  | (Some i, a) =>
      exists k, i = start + k /\ l !! k = Some (Param argname)
                /\ a = Some (Param argname)
                /\ forall j, j < k -> l !! j <> Some (Param argname)
  | (None, a) => a = None /\ Param argname ∉ l
  end.
Proof.
  revert start. induction l as [|[name|elts] l IH]; intros start;
    cbn [_find_arg_from].
  - split; [done|]. apply not_elem_of_nil.
  - case_decide as Hn.
    + subst name. exists 0. repeat split; [lia|]. intros j Hj. lia.
    + specialize (IH (S start)).
      destruct (_find_arg_from (S start) argname l) as [[i|] a].
      * destruct IH as (k & -> & Hk & -> & Hfirst).
        exists (S k). repeat split; [lia|done|].
        intros [|j] Hj; cbn; [congruence|]. apply Hfirst. lia.
      * destruct IH as [-> Hnot]. split; [done|].
        rewrite elem_of_cons. intros [[=]|]; done.
  - specialize (IH (S start)).
    destruct (_find_arg_from (S start) argname l) as [[i|] a].
    + destruct IH as (k & -> & Hk & -> & Hfirst).
      exists (S k). repeat split; [lia|done|].
      intros [|j] Hj; cbn; [congruence|]. apply Hfirst. lia.
    + destruct IH as [-> Hnot]. split; [done|].
      rewrite elem_of_cons. intros [[=]|]; done.
Qed.

Lemma find_argname_find_arg (self : Arguments) (argname : string) (rec : bool) :
  find_argname self argname rec = _find_arg argname (args self) rec.
Proof. unfold find_argname. by destruct (args self). Qed.

Lemma find_argname_lt (self : Arguments) (argname : string) (i : nat) :
  (find_argname self argname false).1 = Some i -> i < length (args self).
Proof.
  rewrite find_argname_find_arg. unfold _find_arg. rewrite find_arg_rec_false.
  pose proof (find_arg_from_spec 0 argname (args self)) as H.
  destruct (_find_arg_from 0 argname (args self)) as [[k|] a]; [|done].
  destruct H as (k' & -> & Hk & _). intros [= <-].
  by apply lookup_lt_Some in Hk.
Qed.

(** X7. [find_argname(name)] returns the position and the node of the
    first parameter called [name] in the declared list, tuple parameters
    counting for one position each; it returns [(None, None)] exactly when no
    parameter of the list has the name. *)
Theorem find_argname_spec (self : Arguments) (argname : string) :
  match find_argname self argname false with
  | (Some i, a) =>
      a = Some (Param argname)
      /\ args self !! i = Some (Param argname)
      /\ forall j, j < i -> args self !! j <> Some (Param argname)
  | (None, a) => a = None /\ Param argname ∉ args self
  end.
Proof.
  rewrite find_argname_find_arg. unfold _find_arg. rewrite find_arg_rec_false.
  pose proof (find_arg_from_spec 0 argname (args self)) as H.
  destruct (_find_arg_from 0 argname (args self)) as [[i|] a]; [|done].
  destruct H as (k & -> & Hk & -> & Hfirst). done.
Qed.

(** X8. [default_value] aligns the defaults with the end of the
    parameter list: with [n] parameters and [d <= n] defaults, the parameter
    found at position [i] has the default number [i - (n - d)] when
    [i >= n - d], and none ([NoDefault]) when [i < n - d] and it is not a
    keyword-only parameter. *)
Theorem default_value_positional (self : Arguments) (argname : string)
  (i : nat) :
  (find_argname self argname false).1 = Some i ->
  length (defaults self) <= length (args self) ->
  (length (args self) - length (defaults self) <= i ->
   exists v, defaults self !! (i - (length (args self) - length (defaults self)))
             = Some v
             /\ default_value self argname = Ret v)
  /\ (i < length (args self) - length (defaults self) ->
      Param argname ∉ kwonlyargs self ->
      default_value self argname = Exc NoDefault).
Proof.
  intros Hi Hlen.
  pose proof (find_argname_lt self argname i Hi) as Hat.
  rewrite find_argname_find_arg in Hi.
  unfold default_value. rewrite Hi.
  split.
  - intros Hge.
    destruct (lookup_lt_is_Some_2 (defaults self)
                (i - (length (args self) - length (defaults self)))) as [v Hv];
      [lia|].
    exists v. split; [done|].
    rewrite (proj2 (Z.leb_le _ _)) by lia.
    rewrite py_index_nat by lia.
    replace (Z.to_nat _) with (i - (length (args self) - length (defaults self)))
      by lia.
    by rewrite Hv.
  - intros Hlt Hkw.
    rewrite (proj2 (Z.leb_gt _ _)) by lia.
    unfold _find_arg. rewrite find_arg_rec_false.
    pose proof (find_arg_from_spec 0 argname (kwonlyargs self)) as H.
    destruct (_find_arg_from 0 argname (kwonlyargs self)) as [[k|] b]; [|done].
    destruct H as (k' & _ & Hk & _). exfalso. apply Hkw.
    by eapply list_elem_of_lookup_2.
Qed.

(** In [def m(self, y=5)] the parameter [y] has the default. *)
Lemma default_value_positional_witness :
  default_value (fargs method_m) "y" = Ret (Const (VInt 5)).
Proof.
  destruct (default_value_positional (fargs method_m) "y" 1 eq_refl) as [H _].
  - simpl. lia.
  - destruct H as (v & Hv & ->); [simpl; lia|].
    simpl in Hv. by injection Hv as <-.
Defined.



Lemma find_arg_rec_true (start : nat) (argname : string) (l : list param) :
  (_find_arg_rec start argname true l).2 <> None
  <-> Param argname ∈ l
      \/ exists elts, TupleParam elts ∈ l /\ Param argname ∈ elts.
Proof.
  revert start. induction l as [|[name|elts] l IH]; intros start;
    cbn [_find_arg_rec].
  - split; [done|]. intros [H | (elts & H & _)]; by apply not_elem_of_nil in H.
  - case_decide as Hn.
    + subst name. split; [|done]. intros _. left. apply list_elem_of_here.
    + rewrite IH. split.
      * intros [H | (elts & H & He)]; [left|right; exists elts; split; [|done]];
          by apply list_elem_of_further.
      * intros [H | (elts & H & He)].
        -- apply elem_of_cons in H as [[=]|H]; [done|by left].
        -- apply elem_of_cons in H as [[=]|H]. right. by exists elts.
  - pose proof (find_arg_from_spec 0 argname elts) as He.
    destruct (_find_arg_from 0 argname elts) as [[i|] a].
    + destruct He as (k & _ & Hk & -> & _). split; [|done].
      intros _. right. exists elts. split; [apply list_elem_of_here|].
      by eapply list_elem_of_lookup_2.
    + destruct He as [_ Hnot]. rewrite IH. split.
      * intros [H | (elts' & H & He)]; [left|right; exists elts'; split; [|done]];
          by apply list_elem_of_further.
      * intros [H | (elts' & H & He)].
        -- apply elem_of_cons in H as [[=]|H]. by left.
        -- apply elem_of_cons in H as [[= ->]|H]; [done|]. right. by exists elts'.
Qed.

Lemma is_argument_spec_inv (self : Arguments) (name : string) :
  is_argument self name = true ->
  vararg self = Some name \/ kwarg self = Some name
  \/ Param name ∈ args self
  \/ exists elts, TupleParam elts ∈ args self /\ Param name ∈ elts.
Proof.
  unfold is_argument. rewrite find_argname_find_arg. unfold _find_arg.
  pose proof (find_arg_rec_true 0 name (args self)) as H.
  destruct (decide (Some name = vararg self)) as [Hv|Hv]; [by auto|].
  destruct (decide (Some name = kwarg self)) as [Hk|Hk]; [by auto|].
  destruct (_find_arg_rec 0 name true (args self)).2 as [a|] eqn:E; [|done].
  intros _. destruct (proj1 H) as [? | ?]; [done|auto..].
Qed.

(** X10. [is_argument(name)] holds exactly for the catch-all names,
    the parameters of the declared list and the names that are direct elements
    of a tuple parameter of the list; a name nested deeper in a tuple
    parameter is not found. *)
Theorem is_argument_spec (self : Arguments) (name : string) :
  is_argument self name = true
  <-> vararg self = Some name \/ kwarg self = Some name
      \/ Param name ∈ args self
      \/ exists elts, TupleParam elts ∈ args self /\ Param name ∈ elts.
Proof.
  unfold is_argument. rewrite find_argname_find_arg. unfold _find_arg.
  pose proof (find_arg_rec_true 0 name (args self)) as H.
  destruct (decide (Some name = vararg self)) as [Hv|Hv];
    [split; [intros _; auto|done]|].
  destruct (decide (Some name = kwarg self)) as [Hk|Hk];
    [split; [intros _; auto|done]|].
  destruct (_find_arg_rec 0 name true (args self)).2 as [a|] eqn:E.
  - split; [|done]. intros _.
    destruct (proj1 H) as [? | ?]; [done|auto..].
  - split; [done|]. intros [? | [? | Hin]]; [done..|].
    exfalso. by apply (proj2 H).
Qed.

End ArgumentsTheory.

(** ** Argument binding: the receiver, positions and star-expansion *)
Module BindingTheory.
Import Infer.

Lemma chain_singleton (g : gen) : chain [g] = g.
Proof.
  destruct g as [vs [e|]]; cbn; [done|]. by rewrite app_nil_r.
Qed.

Section binding.
Context (infer : node -> option InferenceContext -> outcome gen).
Context (iter_node : node -> outcome gen).
Context (self : CallContext) (funcnode : Function) (name : string)
        (context : InferenceContext).

(** X11. The first declared parameter of a method is bound to an
    instance of the receiver, and that of a class method to the receiver
    itself, whatever positional arguments the call has; the receiver is the
    bound node of the context, or else the frame that holds the function. *)
Theorem infer_argument_receiver :
  nargs self !! name = None ->
  (find_argname (fargs funcnode) name false).1 = Some 0 ->
  (type funcnode = "method" ->
   infer_argument infer iter_node self funcnode name context
   = Ret (iter [Inferred (Instance (default (parent_frame funcnode)
                                      (boundnode context)))]))
  /\ (type funcnode = "classmethod" ->
      infer_argument infer iter_node self funcnode name context
      = Ret (iter [Inferred (default (parent_frame funcnode)
                               (boundnode context))])).
Proof.
  intros Hn Hi. unfold infer_argument, from_position. rewrite Hn, Hi.
  split; intros ->; cbn; by destruct (boundnode context).
Qed.

(** X12. A declared parameter that is not the receiver of a method is
    bound to the positional argument at its declared position, when the call
    has no keyword argument of that name. *)
Theorem infer_argument_positional (argindex : nat) (a : node) :
  nargs self !! name = None ->
  (find_argname (fargs funcnode) name false).1 = Some argindex ->
  (argindex = 0 -> type funcnode <> "method" /\ type funcnode <> "classmethod") ->
  cargs self !! argindex = Some a ->
  infer a (Some context) <> Exc IndexError ->
  infer_argument infer iter_node self funcnode name context
  = infer a (Some context).
Proof.
  intros Hn Hi Hfirst Ha Hne. unfold infer_argument, from_position.
  rewrite Hn, Hi, Ha.
  destruct (bool_decide (argindex = 0)
            && (bool_decide (type funcnode = "method")
                || bool_decide (type funcnode = "classmethod"))) eqn:E.
  - apply andb_true_iff in E as [E1 E2].
    apply bool_decide_eq_true in E1. destruct (Hfirst E1) as [H1 H2].
    apply orb_true_iff in E2 as [E2|E2];
      apply bool_decide_eq_true in E2; done.
  - destruct (infer a (Some context)) as [g|[]]; done.
Qed.

(** Expanding one inferred value of a starred argument never lets an
    inference, attribute, index or type error out. *)
Lemma expand_errors (vals : list inferred) (key : pyval) (e : exn) :
  expand infer vals key context = Exc e ->
  is_InferenceError e = false /\ e <> AttributeError
  /\ e <> IndexError /\ e <> TypeError.
Proof.
  induction vals as [|[|v] vals IH]; cbn [expand]; [done| |].
  - destruct (expand infer vals key context); [done|]. cbn. intros [= ->]. auto.
  - destruct (item ← getitem infer v key None; infer item (Some context))
      as [g|e'].
    + destruct (expand infer vals key context); [done|]. cbn. intros [= ->]. auto.
    + destruct (is_InferenceError e' || bool_decide (e' = AttributeError)) eqn:E1.
      { destruct (expand infer vals key context); [done|]. cbn.
        intros [= ->]. auto. }
      destruct (bool_decide (e' = IndexError) || bool_decide (e' = TypeError))
        eqn:E2; [done|].
      intros [= ->].
      apply orb_false_iff in E1 as [? E1], E2 as [E2 E3].
      apply bool_decide_eq_false in E1, E2, E3. done.
Qed.

(** A candidate that fails with an inference or attribute error stands
    for [YES]; one that fails with an index or type error is passed over. *)
Lemma expand_as_YES (pre post : list inferred) (v : node) (key : pyval)
  (e : exn) :
  (item ← getitem infer v key None; infer item (Some context)) = Exc e ->
  is_InferenceError e = true \/ e = AttributeError ->
  expand infer (pre ++ Inferred v :: post) key context
  = expand infer (pre ++ YES :: post) key context.
Proof.
  intros Hstep He. induction pre as [|a pre IH]; cbn [app expand].
  - rewrite Hstep.
    by destruct He as [-> | ->]; [|rewrite bool_decide_true, orb_true_r by done].
  - destruct a; by rewrite IH.
Qed.

Lemma expand_skipped (pre post : list inferred) (v : node) (key : pyval)
  (e : exn) :
  (item ← getitem infer v key None; infer item (Some context)) = Exc e ->
  e = IndexError \/ e = TypeError ->
  expand infer (pre ++ Inferred v :: post) key context
  = expand infer (pre ++ post) key context.
Proof.
  intros Hstep He. induction pre as [|a pre IH]; cbn [app expand].
  - rewrite Hstep. by destruct He as [-> | ->].
  - destruct a; by rewrite IH.
Qed.
End binding.

(** [A().m(10)] for [def m(self, y=5)] of class [A]: [self] is an
    instance of [A]. *)
Lemma infer_argument_receiver_witness :
  infer_argument (infer no_bindings 1) iter_object
    (mkCallContext [Positional (Const (VInt 10))] None None)
    method_m "self" fresh
  = Ret (iter [Inferred (Instance class_A)]).
Proof.
  apply (proj1 (infer_argument_receiver (infer no_bindings 1) iter_object
                  (mkCallContext [Positional (Const (VInt 10))] None None)
                  method_m "self" fresh eq_refl eq_refl)).
  reflexivity.
Defined.

(** [f(7, 8)] for [def f(x, y)]: [y] is 8. *)
Lemma infer_argument_positional_witness :
  infer_argument (infer no_bindings 1) iter_object
    (mkCallContext [Positional (Const (VInt 7)); Positional (Const (VInt 8))]
       None None)
    (plain [Param "x"; Param "y"] None None) "y" fresh
  = Ret (iter [Inferred (Const (VInt 8))]).
Proof.
  apply (infer_argument_positional (infer no_bindings 1) iter_object
           (mkCallContext
              [Positional (Const (VInt 7)); Positional (Const (VInt 8))]
              None None)
           (plain [Param "x"; Param "y"] None None) "y" fresh
           1 (Const (VInt 8))); try reflexivity.
  - intros [=].
  - discriminate.
Defined.

(** [A().m()] for [def m(self, y=5)]: [y] is 5. *)
Lemma infer_argument_default_witness :
  infer_argument (infer no_bindings 1) iter_object
    (mkCallContext [] None None) method_m "y" fresh
  = Ret (iter [Inferred (Const (VInt 5))]).
Proof.
  apply (CallTheory.infer_argument_default (infer no_bindings 1) iter_object
           (mkCallContext [] None None) method_m "y" fresh (Const (VInt 5)));
    try reflexivity; try discriminate.
  vm_compute. repeat split; discriminate.
Defined.

(** X13. A parameter left without keyword and positional argument is
    bound through the starred argument of the call: when that argument is
    inferred to one list or tuple node, the parameter declared at position [i]
    gets the inference of element [i]; when it is inferred to [YES], the
    parameter is [YES]. *)
Theorem infer_argument_starargs
  (infer : node -> option InferenceContext -> outcome gen)
  (iter_node : node -> outcome gen)
  (self : CallContext) (funcnode : Function) (name : string)
  (context : InferenceContext) (argindex : nat) (star : node) :
  nargs self !! name = None ->
  (find_argname (fargs funcnode) name false).1 = Some argindex ->
  (argindex = 0 -> type funcnode <> "method" /\ type funcnode <> "classmethod") ->
  cargs self !! argindex = None ->
  starargs self = Some star ->
  (forall seq elts e g,
     infer star (Some context) = Ret (iter [Inferred seq]) ->
     seq = List elts \/ seq = Tuple elts ->
     elts !! argindex = Some e ->
     infer e (Some context) = Ret g ->
     infer_argument infer iter_node self funcnode name context = Ret g)
  /\ (infer star (Some context) = Ret (iter [YES]) ->
      infer_argument infer iter_node self funcnode name context
      = Ret (iter [YES])).
Proof.
  intros Hn Hi Hfirst Ha Hs.
  assert (infer_argument infer iter_node self funcnode name context
          = from_starargs infer iter_node self funcnode name context argindex)
    as ->.
  { unfold infer_argument, from_position. rewrite Hn, Hi, Ha.
    destruct (bool_decide (argindex = 0)
              && (bool_decide (type funcnode = "method")
                  || bool_decide (type funcnode = "classmethod"))) eqn:E;
      [|done].
    apply andb_true_iff in E as [E1 E2].
    apply bool_decide_eq_true in E1. destruct (Hfirst E1) as [H1 H2].
    apply orb_true_iff in E2 as [E2|E2];
      apply bool_decide_eq_true in E2; done. }
  unfold from_starargs, from_expansion. rewrite Hs. split.
  - intros seq elts e g Hstar Hseq He Hg. rewrite Hstar. cbn.
    assert (getitem infer seq (VInt (Z.of_nat argindex)) None = Ret e) as ->.
    { destruct Hseq as [-> | ->]; cbn; rewrite ArgumentsTheory.py_index_nat by lia;
        by rewrite Nat2Z.id, He. }
    cbn -[chain]. rewrite Hg. cbn -[chain]. by rewrite chain_singleton.
  - intros Hstar. rewrite Hstar. done.
Qed.

(** [def f(x, y)] called with the starred tuple [(7, 8)]: [y] is 8. *)
Lemma infer_argument_starargs_witness :
  infer_argument (infer no_bindings 1) iter_object
    (mkCallContext [] (Some (Tuple [Const (VInt 7); Const (VInt 8)])) None)
    (plain [Param "x"; Param "y"] None None) "y" fresh
  = Ret (iter [Inferred (Const (VInt 8))]).
Proof.
  assert (1 = 0 -> type (plain [Param "x"; Param "y"] None None) <> "method"
                   /\ type (plain [Param "x"; Param "y"] None None)
                      <> "classmethod") as Hfirst by (intros [=]).
  exact (proj1 (infer_argument_starargs (infer no_bindings 1) iter_object
                  (mkCallContext []
                     (Some (Tuple [Const (VInt 7); Const (VInt 8)])) None)
                  (plain [Param "x"; Param "y"] None None) "y" fresh 1
                  (Tuple [Const (VInt 7); Const (VInt 8)])
                  eq_refl eq_refl Hfirst eq_refl eq_refl)
           (Tuple [Const (VInt 7); Const (VInt 8)])
           [Const (VInt 7); Const (VInt 8)] (Const (VInt 8))
           (iter [Inferred (Const (VInt 8))])
           eq_refl (or_intror eq_refl) eq_refl eq_refl).
Defined.

(** X14. A parameter that the call binds neither by keyword nor by
    position nor through the starred argument is looked up by its name in the
    double-starred argument: when that argument is inferred to one dict node
    in which [getitem] finds the name, the parameter gets the inference of the
    value found. *)
Theorem infer_argument_dstarargs
  (infer : node -> option InferenceContext -> outcome gen)
  (iter_node : node -> outcome gen)
  (self : CallContext) (funcnode : Function) (name : string)
  (context : InferenceContext) (dstar : node) (items : list (node * node))
  (value : node) (g : gen) :
  nargs self !! name = None ->
  no_positional infer self funcnode name context ->
  dstarargs self = Some dstar ->
  infer dstar (Some context) = Ret (iter [Inferred (Dict items)]) ->
  getitem infer (Dict items) (VStr name) None = Ret value ->
  infer value (Some context) = Ret g ->
  infer_argument infer iter_node self funcnode name context = Ret g.
Proof.
  intros Hn Hpos Hd Hstar Hitem Hg. unfold infer_argument. rewrite Hn.
  rewrite CallTheory.from_position_falls_through by done.
  unfold from_dstarargs, from_expansion. rewrite Hd, Hstar.
  cbn [mbind outcome_bind fst snd iter expand].
  rewrite Hitem. cbn -[chain]. rewrite Hg. cbn -[chain].
  by rewrite chain_singleton.
Qed.

(** [def f(x, y)] called with the double-starred dict [{'y': 8}]: [y]
    is 8. *)
Lemma infer_argument_dstarargs_witness :
  infer_argument (infer no_bindings 1) iter_object
    (mkCallContext [] None
       (Some (Dict [(Const (VStr "y"), Const (VInt 8))])))
    (plain [Param "x"; Param "y"] None None) "y" fresh
  = Ret (iter [Inferred (Const (VInt 8))]).
Proof.
  apply (infer_argument_dstarargs (infer no_bindings 1) iter_object _ _ "y" fresh
           (Dict [(Const (VStr "y"), Const (VInt 8))])
           [(Const (VStr "y"), Const (VInt 8))] (Const (VInt 8)));
    try reflexivity.
  vm_compute. repeat split; discriminate.
Defined.

(** X15. The expansion of a starred or double-starred argument
    absorbs the failures of its candidates.  When the inference of the
    argument itself ends without an exception: a candidate whose [getitem]
    or whose inference fails with an inference error or an attribute error
    counts as [YES], the result being what it is with [YES] in the place of
    the candidate; a candidate that fails with an index error or a type
    error is skipped, the result being what it is without the candidate; so
    what the expansion can still raise is none of these four.  With one
    candidate that counts as [YES] the parameter is [YES]; with one candidate
    that is skipped the expansion gives nothing. *)
Theorem from_expansion_errors
  (infer : node -> option InferenceContext -> outcome gen)
  (star : node) (key : pyval) (context : InferenceContext)
  (vals : list inferred) :
  infer star (Some context) = Ret (vals, None) ->
  (forall e,
     from_expansion infer (Some star) key context = Exc e ->
     is_InferenceError e = false /\ e <> AttributeError
     /\ e <> IndexError /\ e <> TypeError)
  /\ (forall pre v post e,
        vals = pre ++ Inferred v :: post ->
        (item ← getitem infer v key None; infer item (Some context)) = Exc e ->
        (is_InferenceError e = true \/ e = AttributeError ->
         from_expansion infer (Some star) key context
         = (its ← expand infer (pre ++ YES :: post) key context;
            Ret (match its with [] => None | _ => Some (chain its) end)))
        /\ (e = IndexError \/ e = TypeError ->
            from_expansion infer (Some star) key context
            = (its ← expand infer (pre ++ post) key context;
               Ret (match its with [] => None | _ => Some (chain its) end))))
  /\ (forall v e,
        vals = [Inferred v] ->
        (item ← getitem infer v key None; infer item (Some context)) = Exc e ->
        (is_InferenceError e = true \/ e = AttributeError ->
         from_expansion infer (Some star) key context = Ret (Some (iter [YES])))
        /\ (e = IndexError \/ e = TypeError ->
            from_expansion infer (Some star) key context = Ret None)).
Proof.
  intros Hstar. unfold from_expansion. rewrite Hstar.
  cbn [mbind outcome_bind fst snd].
  split; [|split].
  - intros e. destruct (expand infer vals key context) as [its|e'] eqn:E; cbn;
      [done|].
    intros [= <-]. by eapply expand_errors.
  - intros pre v post e -> Hstep. split; intros He.
    + by rewrite (expand_as_YES infer context pre post v key e Hstep He).
    + by rewrite (expand_skipped infer context pre post v key e Hstep He).
  - intros v e -> Hstep. split; intros He.
    + pose proof (expand_as_YES infer context [] [] v key e Hstep He) as H.
      cbn [app] in H. by rewrite H.
    + pose proof (expand_skipped infer context [] [] v key e Hstep He) as H.
      cbn [app] in H. by rewrite H.
Qed.

(** A call with the starred tuple [(1 < 2,)]: the element has no
    inference rule, so the first parameter is [YES]; the tuple has no second
    element, so the expansion gives nothing for the second parameter. *)
Lemma from_expansion_errors_witness :
  from_expansion (infer no_bindings 1) (Some (Tuple [Compare 1])) (VInt 0) fresh
  = Ret (Some (iter [YES]))
  /\ from_expansion (infer no_bindings 1) (Some (Tuple [Compare 1])) (VInt 1)
       fresh
     = Ret None.
Proof.
  split.
  - destruct (from_expansion_errors (infer no_bindings 1) (Tuple [Compare 1])
                (VInt 0) fresh [Inferred (Tuple [Compare 1])] eq_refl)
      as (_ & _ & H).
    destruct (H (Tuple [Compare 1]) InferenceError eq_refl eq_refl) as [Hyes _].
    apply Hyes. by left.
  - destruct (from_expansion_errors (infer no_bindings 1) (Tuple [Compare 1])
                (VInt 1) fresh [Inferred (Tuple [Compare 1])] eq_refl)
      as (_ & _ & H).
    destruct (H (Tuple [Compare 1]) IndexError eq_refl eq_refl) as [_ Hskip].
    apply Hskip. by left.
Defined.

End BindingTheory.

(** ** Subscripts and literal containers *)
Module ContainerTheory.
Import Infer InferTheory.

(** X16. [infer_subscript] reads the subscripted expression as it
    stands, without inferring it.  With one index whose first inferred value
    is a node: an index that is not a constant, or an expression of a class
    without [getitem] (a name, another subscript, a class, ...), raises
    [InferenceError]; a constant that is not a string, and a list or tuple
    indexed by something that is not an integer, give [YES]. *)
Theorem infer_subscript_unsupported
  (infer_ : node -> option InferenceContext -> outcome gen)
  (context : InferenceContext) (uid : nat) (expr sub : node) (g : gen)
  (index : node) :
  infer_ sub (Some context) = Ret g ->
  next g = Ret (Inferred index) ->
  ((forall v, index <> Const v) ->
   infer_subscript infer_ (Subscript uid expr [sub]) context
   = raising InferenceError)
  /\ (forall v,
        index = Const v ->
        (match expr with
         | Const _ | List _ | Tuple _ | Dict _ => False
         | _ => True
         end ->
         infer_subscript infer_ (Subscript uid expr [sub]) context
         = raising InferenceError)
        /\ (forall c, expr = Const c -> (forall s, c <> VStr s) ->
            infer_subscript infer_ (Subscript uid expr [sub]) context
            = iter [YES])
        /\ (forall elts, expr = List elts \/ expr = Tuple elts ->
            (forall i, v <> VInt i) ->
            infer_subscript infer_ (Subscript uid expr [sub]) context
            = iter [YES])).
Proof.
  intros Hsub Hnext. cbn [infer_subscript]. rewrite Hsub. cbn.
  rewrite Hnext. split.
  - intros Hindex. destruct index; try done. by destruct (Hindex value).
  - intros v ->. cbn. repeat split.
    + by destruct expr.
    + intros c -> Hc. destruct c; try done. by destruct (Hc s).
    + intros elts [-> | ->] Hv; cbn; destruct v; try done; by destruct (Hv z).
Qed.

(** [x[0]] raises [InferenceError], whatever [x] is bound to. *)
Lemma infer_subscript_unsupported_witness :
  infer_subscript (infer no_bindings 1)
    (Subscript 1 (Name 2 "x") [Const (VInt 0)]) fresh
  = raising InferenceError.
Proof.
  destruct (infer_subscript_unsupported (infer no_bindings 1) fresh 1
              (Name 2 "x") (Const (VInt 0)) (iter [Inferred (Const (VInt 0))])
              (Const (VInt 0)) eq_refl eq_refl) as [_ H].
  destruct (H (VInt 0) eq_refl) as [H1 _]. by apply H1.
Defined.

Lemma py_index_fmap {A B} (f : A -> B) (l : list A) (i : Z) :
  py_index (f <$> l) i = x ← py_index l i; Ret (f x).
Proof.
  unfold py_index. rewrite length_fmap. cbv zeta.
  destruct (_ <? 0)%Z; [done|].
  rewrite list_lookup_fmap. by destruct (l !! _).
Qed.

(** The keys built by [const_factory] are inferred to themselves. *)
Lemma infer_const_factory (prog : program) (depth : nat) (v : pyval)
  (context : option InferenceContext) :
  infer prog (S depth) (const_factory v) context
  = Ret (infer_end (const_factory v)).
Proof. by destruct v. Qed.

Lemma Dict_getitem_from_constants (prog : program) (depth : nat)
  (items : list (pyval * pyval)) (k : pyval) :
  const_factory k = Const k ->
  Dict_getitem (infer prog (S depth))
    ((fun kv => (const_factory kv.1, const_factory kv.2)) <$> items) k None
  = match list_find (fun kv => kv.1 = k) items with
    | Some (_, kv) => Ret (const_factory kv.2)
    | None => Exc IndexError
    end.
Proof.
  intros Hk. induction items as [|[k' v'] items IH]; [done|].
  cbn [fmap list_fmap Dict_getitem fst snd]. rewrite infer_const_factory.
  cbn [mbind outcome_bind infer_end iter fst snd existsb].
  rewrite orb_false_r. cbn [list_find]. case_decide as Hkk; cbn in Hkk.
  - subst k'. rewrite Hk. cbn. by rewrite bool_decide_true.
  - assert (key_matches k (Inferred (const_factory k')) = false) as ->.
    { destruct k'; cbn; try done; by rewrite bool_decide_false by congruence. }
    rewrite IH. by destruct (list_find _ items) as [[]|].
Qed.

(** X17. Reading back what [from_constants] built.  A list or tuple
    node built from Python values gives at every index the node of the value
    at that index, and fails where indexing the values fails.  A dict node
    built from a Python dict gives, for a key whose node is a constant, the
    node of the value stored under the key, and raises [IndexError] for a key
    that is not in the dict. *)
Theorem from_constants_getitem (prog : program) (depth : nat) :
  (forall elts index context,
     getitem (infer prog (S depth)) (List_from_constants (Some elts)) index context
     = (v ← py_getitem elts index; Ret (const_factory v))
     /\ getitem (infer prog (S depth)) (Tuple_from_constants (Some elts))
          index context
        = (v ← py_getitem elts index; Ret (const_factory v)))
  /\ (forall items k,
        NoDup items.*1 -> const_factory k = Const k ->
        (forall v, (k, v) ∈ items ->
           getitem (infer prog (S depth)) (Dict_from_constants (Some items)) k None
           = Ret (const_factory v))
        /\ (k ∉ items.*1 ->
            getitem (infer prog (S depth)) (Dict_from_constants (Some items))
              k None
            = Exc IndexError)).
Proof.
  split.
  - intros elts index context. cbn.
    destruct index; cbn; try done; by rewrite py_index_fmap.
  - intros items k Hnodup Hk. cbn [getitem Dict_from_constants].
    rewrite Dict_getitem_from_constants by done. split.
    + intros v Hv.
      destruct (list_find (fun kv => kv.1 = k) items) as [[i [k' v']]|] eqn:E.
      * apply list_find_Some in E as (Hi & Hk' & _). cbn in Hk'. subst k'.
        apply list_elem_of_lookup_2 in Hi.
        assert (v' = v) as ->; [|done].
        clear -Hnodup Hi Hv.
        induction items as [|[a b] items IH];
          [by apply not_elem_of_nil in Hv|].
        apply NoDup_cons in Hnodup as [Hnot Hnodup].
        cbn in Hnot.
        apply elem_of_cons in Hi as [Hi|Hi]; apply elem_of_cons in Hv as [Hv|Hv].
        -- congruence.
        -- exfalso. apply Hnot. apply list_elem_of_fmap. exists (k, v).
           split; [cbn; congruence|done].
        -- exfalso. apply Hnot. apply list_elem_of_fmap. exists (k, v').
           split; [cbn; congruence|done].
        -- by apply IH.
      * exfalso. apply list_find_None in E. rewrite Forall_forall in E.
        by apply (E (k, v)).
    + intros Hnot.
      destruct (list_find (fun kv => kv.1 = k) items) as [[i [k' v']]|] eqn:E;
        [|done].
      apply list_find_Some in E as (Hi & Hk' & _). cbn in Hk'. subst k'.
      exfalso. apply Hnot. apply list_elem_of_fmap. exists (k, v').
      split; [done|]. by eapply list_elem_of_lookup_2.
Qed.

(** The dict built from [{'a': 1, 'b': 2}], read at ['b']. *)
Lemma from_constants_getitem_witness :
  getitem (infer no_bindings 1)
    (Dict_from_constants (Some [(VStr "a", VInt 1); (VStr "b", VInt 2)]))
    (VStr "b") None
  = Ret (Const (VInt 2)).
Proof.
  destruct (from_constants_getitem no_bindings 0) as [_ H].
  destruct (H [(VStr "a", VInt 1); (VStr "b", VInt 2)] (VStr "b")) as [Hin _].
  - apply NoDup_cons. split.
    + intros Hx. apply list_elem_of_singleton in Hx. discriminate Hx.
    + apply NoDup_singleton.
  - reflexivity.
  - apply (Hin (VInt 2)). apply list_elem_of_further, list_elem_of_here.
Defined.

End ContainerTheory.

(** ** [unpack_infer] *)
Module UnpackTheory.
Import Infer InferTheory.

Lemma chain_elem_of (gs : list gen) (v : inferred) :
  v ∈ (chain gs).1 -> exists g, g ∈ gs /\ v ∈ g.1.
Proof.
  induction gs as [|[vs [e|]] gs IH]; cbn [chain].
  - intros H. by apply not_elem_of_nil in H.
  - intros H. exists (vs, Some e). split; [apply list_elem_of_here|done].
  - destruct (chain gs) as [ws e] eqn:E. cbn. intros H.
    apply elem_of_app in H as [H|H].
    + exists (vs, None). split; [apply list_elem_of_here|done].
    + destruct (IH H) as (g & Hg & Hv). exists g.
      split; [by apply list_elem_of_further|done].
Qed.

Lemma chain_iters (ls : list (list inferred)) :
  chain (iter <$> ls) = iter (concat ls).
Proof.
  induction ls as [|l ls IH]; [done|].
  cbn [fmap list_fmap chain iter concat]. cbn [fmap] in IH. by rewrite IH.
Qed.

(** X18. [unpack_infer] never yields a list or a tuple node: what it
    yields is [YES] or a node of another class, for every statement, every
    context and every bound on the nesting of calls. *)
Theorem unpack_infer_unpacked (prog : program) (depth : nat) (stmt : node)
  (context : option InferenceContext) (v : inferred) :
  v ∈ (unpack_infer prog depth stmt context).1 ->
  v = YES \/ exists n, v = Inferred n /\ is_sequence n = false.
Proof.
  revert stmt. induction depth as [|d IH]; intros stmt.
  { intros H. by apply not_elem_of_nil in H. }
  assert (forall elts,
             v ∈ (chain ((fun elt => unpack_infer prog d elt context) <$> elts)).1 ->
             v = YES \/ exists n, v = Inferred n /\ is_sequence n = false)
    as Hseq.
  { intros elts H. apply chain_elem_of in H as (g & Hg & Hv).
    apply list_elem_of_fmap in Hg as (elt & -> & _). by eapply IH. }
  assert (is_sequence stmt = false ->
          v ∈ (match (g ← infer prog (S d) stmt context; next g) with
               | Exc StopIteration => iter []
               | Exc e => raising e
               | Ret inferred_ =>
                   if decide (inferred_ = Inferred stmt) then iter [inferred_]
                   else
                     match infer prog (S d) stmt context with
                     | Exc e => raising e
                     | Ret g =>
                         chain (((fun v => match v with
                                           | YES => iter [YES]
                                           | Inferred n =>
                                               unpack_infer prog d n context
                                           end) <$> g.1)
                                ++ [([], g.2)])
                     end
               end).1 ->
          v = YES \/ exists n, v = Inferred n /\ is_sequence n = false)
    as Hother.
  { intros Hstmt.
    destruct (g ← infer prog (S d) stmt context; next g) as [w|e].
    2: { intros H. destruct e; by apply not_elem_of_nil in H. }
    case_decide as Hw.
    - subst w. intros H. apply list_elem_of_singleton in H as ->. eauto.
    - destruct (infer prog (S d) stmt context) as [g|e].
      2: { intros H. by apply not_elem_of_nil in H. }
      intros H. apply chain_elem_of in H as (g' & Hg & Hv).
      apply elem_of_app in Hg as [Hg|Hg].
      + apply list_elem_of_fmap in Hg as ([|n] & -> & _).
        * apply list_elem_of_singleton in Hv as ->. auto.
        * by eapply IH.
      + apply list_elem_of_singleton in Hg as ->. by apply not_elem_of_nil in Hv. }
  destruct stmt; cbn [unpack_infer]; try (by apply Hother); apply Hseq.
Qed.

Lemma height_elt (e : node) (elts : list node) :
  e ∈ elts -> height e <= list_max (map height elts).
Proof.
  induction 1 as [e elts|e e' elts _ IH]; simpl; lia.
Qed.

Lemma leaves_elt (e x : node) (elts : list node) :
  e ∈ elts -> x ∈ leaves e -> x ∈ concat (map leaves elts).
Proof.
  induction 1 as [e elts|e e' elts _ IH]; cbn [map concat]; intros Hx;
    apply elem_of_app; auto.
Qed.

(** X19. On nested list and tuple nodes whose leaves are values,
    [unpack_infer] yields the leaves from left to right and ends, as soon as
    the bound on the nesting of calls exceeds the depth of the nesting. *)
Theorem unpack_infer_leaves (prog : program) (depth : nat) (stmt : node)
  (context : option InferenceContext) :
  height stmt < depth ->
  Forall (fun x => is_value x = true) (leaves stmt) ->
  unpack_infer prog depth stmt context = iter (Inferred <$> leaves stmt).
Proof.
  revert stmt. induction depth as [|d IH]; intros stmt Hh Hl; [lia|].
  assert (forall elts,
             list_max (map height elts) < d ->
             Forall (fun x => is_value x = true) (concat (map leaves elts)) ->
             chain ((fun elt => unpack_infer prog d elt context) <$> elts)
             = iter (Inferred <$> concat (map leaves elts))) as Hseq.
  { intros elts Hmax Hall.
    assert ((fun elt => unpack_infer prog d elt context) <$> elts
            = iter <$> ((fun elt => Inferred <$> leaves elt) <$> elts)) as ->.
    { rewrite <- list_fmap_compose. apply Forall_fmap_ext_1.
      rewrite Forall_forall. intros e He. cbn. apply IH.
      - pose proof (height_elt e elts He). lia.
      - rewrite Forall_forall in Hall |- *. intros x Hx.
        apply Hall. by eapply leaves_elt. }
    rewrite chain_iters. f_equal.
    clear. induction elts as [|e elts IHe]; [done|].
    cbn [map concat fmap list_fmap]. rewrite fmap_app. cbn [fmap] in IHe.
    by rewrite IHe. }
  destruct stmt; cbn [unpack_infer leaves height] in *;
    try (apply Hseq; [lia|done]).
  all: rewrite Forall_singleton in Hl; cbn in Hl; try discriminate Hl.
  all: cbn; by rewrite decide_True.
Qed.

(** [[1, (2, [3])]] unpacks to 1, 2, 3. *)
Lemma unpack_infer_leaves_witness :
  unpack_infer no_bindings 4
    (List [Const (VInt 1); Tuple [Const (VInt 2); List [Const (VInt 3)]]]) None
  = iter [Inferred (Const (VInt 1)); Inferred (Const (VInt 2));
          Inferred (Const (VInt 3))].
Proof.
  apply (unpack_infer_leaves no_bindings 4
           (List [Const (VInt 1); Tuple [Const (VInt 2); List [Const (VInt 3)]]])
           None).
  - simpl. lia.
  - repeat constructor.
Defined.

(** In [a = b; b = a] the unpacking of [[a]] yields nothing a list or a
    tuple. *)
Lemma unpack_infer_unpacked_witness :
  YES = YES \/ exists n, YES = Inferred n /\ is_sequence n = false.
Proof.
  apply (unpack_infer_unpacked mutual_reference 8 (List [Name 3 "a"]) None YES).
  vm_compute. apply list_elem_of_here.
Defined.

End UnpackTheory.

(** ** Functions built from living objects *)
Module RawTheory.
Import Infer Raw ArgumentsTheory.

(** In a list of plain names without repetition, a name is found at its
    position. *)
Lemma find_arg_from_names (start : nat) (names : list string) (i : nat)
  (name : string) :
  NoDup names -> names !! i = Some name ->
  _find_arg_from start name (Param <$> names) = (Some (start + i), Some (Param name)).
Proof.
  revert start i. induction names as [|x names IH]; intros start i Hnd Hi;
    [done|].
  apply NoDup_cons in Hnd as [Hx Hnd]. cbn [fmap list_fmap _find_arg_from].
  destruct i as [|i]; cbn in Hi.
  - injection Hi as ->. rewrite decide_True by done. by rewrite Nat.add_0_r.
  - rewrite decide_False.
    + cbn [fmap] in IH. rewrite (IH (S start) i) by done. do 2 f_equal. lia.
    + intros ->. apply Hx. by eapply list_elem_of_lookup_2.
Qed.

Lemma default_value_names (names : list string) (defaults : list pyval)
  (i : nat) (name : string) :
  NoDup names -> names !! i = Some name ->
  length defaults <= length names ->
  default_value (build_function (Some names) (Some defaults)) name
  = match (if decide (length names - length defaults <= i)
           then defaults !! (i - (length names - length defaults))
           else None) with
    | Some v => Ret (const_factory v)
    | None => Exc NoDefault
    end.
Proof.
  intros Hnd Hi Hlen.
  pose proof (lookup_lt_Some _ _ _ Hi) as Hlt.
  unfold default_value, build_function, _find_arg. cbn [Infer.args Infer.defaults
    kwonlyargs kw_defaults default]. unfold id.
  rewrite !find_arg_rec_false, (find_arg_from_names 0 names i name) by done.
  cbn [fst _find_arg_from Nat.add]. rewrite !length_fmap.
  case_decide as Hge.
  - rewrite (proj2 (Z.leb_le _ _)) by lia.
    rewrite py_index_nat by lia. rewrite list_lookup_fmap.
    replace (Z.to_nat _) with (i - (length names - length defaults)) by lia.
    destruct (lookup_lt_is_Some_2 defaults (i - (length names - length defaults)))
      as [v Hv]; [lia|].
    by rewrite Hv.
  - by rewrite (proj2 (Z.leb_gt _ _)) by lia.
Qed.

(** X20. A function built by [build_function] from [n] distinct
    names and [d <= n] default values: [default_value] gives to the name at
    position [i] the node of the default number [i - (n - d)] when
    [i >= n - d], and raises [NoDefault] for the names before. *)
Theorem build_function_default_value (names : list string)
  (defaults : list pyval) (i : nat) (name : string) :
  NoDup names -> names !! i = Some name ->
  length defaults <= length names ->
  (forall v, length names - length defaults <= i ->
     defaults !! (i - (length names - length defaults)) = Some v ->
     default_value (build_function (Some names) (Some defaults)) name
     = Ret (const_factory v))
  /\ (i < length names - length defaults ->
      default_value (build_function (Some names) (Some defaults)) name
      = Exc NoDefault).
Proof.
  intros Hnd Hi Hlen.
  rewrite (default_value_names names defaults i name) by done. split.
  - intros v Hge Hv. rewrite decide_True by done. by rewrite Hv.
  - intros Hlt. by rewrite decide_False by lia.
Qed.

(** [def f(a, b=1)] built from its names and defaults. *)
Lemma build_function_default_value_witness :
  default_value (build_function (Some ["a"; "b"]) (Some [VInt 1])) "b"
  = Ret (Const (VInt 1)).
Proof.
  destruct (build_function_default_value ["a"; "b"] [VInt 1] 1 "b") as [H _].
  - apply NoDup_cons. split; [|apply NoDup_singleton].
    intros Hx. apply list_elem_of_singleton in Hx. discriminate Hx.
  - reflexivity.
  - simpl. lia.
  - apply (H (VInt 1)); [simpl; lia | reflexivity].
Defined.

(** X21. A living function with a catch-all positional parameter:
    [object_build_function] appends the catch-all name to the positional
    names and passes the defaults on unchanged, so the defaults are aligned
    one position too far.  With [n] distinct names and [1 <= d <= n]
    defaults, the first parameter that has a default in the function is left
    without one, and the catch-all name gets the last default. *)
Theorem object_build_function_varargs (names : list string) (varargs : string)
  (defaults : list pyval) (first : string) (last_default : pyval) :
  NoDup (names ++ [varargs]) ->
  0 < length defaults <= length names ->
  names !! (length names - length defaults) = Some first ->
  last defaults = Some last_default ->
  default_value (object_build_function names (Some varargs) None (Some defaults))
    first
  = Exc NoDefault
  /\ default_value
       (object_build_function names (Some varargs) None (Some defaults)) varargs
     = Ret (const_factory last_default)
  /\ vararg (object_build_function names (Some varargs) None (Some defaults))
     = None.
Proof.
  intros Hnd Hlen Hfirst Hlast. unfold object_build_function.
  split; [|split; [|done]].
  - rewrite (default_value_names _ _ (length names - length defaults) first);
      [|done| |rewrite length_app; simpl; lia].
    + rewrite decide_False; [done|]. rewrite length_app. simpl. lia.
    + by apply lookup_app_l_Some.
  - rewrite (default_value_names _ _ (length names) varargs);
      [|done| |rewrite length_app; simpl; lia].
    + rewrite decide_True by (rewrite length_app; simpl; lia).
      rewrite length_app. cbn [length].
      replace (length names - (length names + 1 - length defaults))
        with (pred (length defaults)) by lia.
      rewrite last_lookup in Hlast. by rewrite Hlast.
    + rewrite lookup_app_r by lia. by rewrite Nat.sub_diag.
Qed.

(** [def f(a, b=1, *rest)] as a living function. *)
Lemma object_build_function_varargs_witness :
  default_value (object_build_function ["a"; "b"] (Some "rest") None
                   (Some [VInt 1])) "b"
  = Exc NoDefault
  /\ default_value (object_build_function ["a"; "b"] (Some "rest") None
                      (Some [VInt 1])) "rest"
     = Ret (Const (VInt 1)).
Proof.
  destruct (object_build_function_varargs ["a"; "b"] "rest" [VInt 1] "b"
              (VInt 1)) as (H1 & H2 & _).
  - apply (bool_decide_unpack _). vm_compute. exact I.
  - simpl. lia.
  - reflexivity.
  - reflexivity.
  - split; [exact H1 | exact H2].
Defined.

Lemma register_param_name (name : string) :
  (name, ParamNode (Param name)) ∈ register_param (Param name).
Proof. apply list_elem_of_here. Qed.

Lemma register_params_elem (args : list param) (a : param)
  (x : string * local) :
  a ∈ args -> x ∈ register_param a -> x ∈ register_params args.
Proof.
  intros Ha Hx. unfold register_params. apply list_elem_of_bind. eauto.
Qed.

Lemma register_param_tuple (elts : list param) (a : param)
  (x : string * local) :
  a ∈ elts -> x ∈ register_param a -> x ∈ register_param (TupleParam elts).
Proof.
  cbn [register_param].
  induction 1 as [a elts|a b elts _ IH]; intros Hx; apply elem_of_app; auto.
Qed.

(** X22. Every name that [Arguments.is_argument] accepts, the empty
    name apart, is registered in the locals of the function by
    [register_arguments]. *)
Theorem register_arguments_is_argument (self : Arguments) (name : string) :
  is_argument self name = true -> name <> "" ->
  name ∈ (register_arguments self).*1.
Proof.
  intros Hi Hne. apply is_argument_spec_inv in Hi.
  unfold register_arguments. rewrite !fmap_app, !elem_of_app.
  destruct Hi as [Hv | [Hk | [Hp | (elts & He & Hp)]]].
  - left. rewrite Hv, decide_False by done. apply list_elem_of_here.
  - right. left. rewrite Hk, decide_False by done. apply list_elem_of_here.
  - right. right. apply list_elem_of_fmap.
    exists (name, ParamNode (Param name)). split; [done|].
    eapply register_params_elem; [done|]. apply register_param_name.
  - right. right. apply list_elem_of_fmap.
    exists (name, ParamNode (Param name)). split; [done|].
    eapply register_params_elem; [done|].
    eapply register_param_tuple; [done|]. apply register_param_name.
Qed.

(** [def f(a, (b, c))]: the nested name [c] is an argument and is
    registered. *)
Lemma register_arguments_is_argument_witness :
  "c" ∈ (register_arguments
           (fargs (plain [Param "a"; TupleParam [Param "b"; Param "c"]]
                     None None))).*1.
Proof.
  apply (register_arguments_is_argument
           (fargs (plain [Param "a"; TupleParam [Param "b"; Param "c"]]
                     None None)) "c").
  - reflexivity.
  - discriminate.
Defined.

End RawTheory.

(** ** Module names and delayed assignments *)
Module BuilderTheory.
Import Builder.

Lemma length_append (a b : string) :
  String.length (a +:+ b) = String.length a + String.length b.
Proof. induction a as [|c a IH]; simpl; [done|]. by rewrite IH. Qed.

Lemma substring_all (s : string) : String.substring 0 (String.length s) s = s.
Proof. induction s as [|c s IH]; simpl; [done|]. by rewrite IH. Qed.

Lemma substring_append_l (a b : string) :
  String.substring 0 (String.length a) (a +:+ b) = a.
Proof.
  induction a as [|c a IH]; simpl; [by destruct b|]. by rewrite IH.
Qed.

Lemma substring_skip (a s : string) (n m : nat) :
  String.substring (String.length a + n) m (a +:+ s) = String.substring n m s.
Proof. induction a as [|c a IH]; simpl; [done|]. apply IH. Qed.

Lemma endswith_append (a suffix : string) : endswith (a +:+ suffix) suffix = true.
Proof.
  unfold endswith. cbv zeta. rewrite length_append.
  rewrite bool_decide_true by lia. cbn [andb].
  replace (String.length a + String.length suffix - String.length suffix)
    with (String.length a + 0) by lia.
  rewrite substring_skip, substring_all. apply String.eqb_refl.
Qed.

Lemma found_append (pre sub post : string) :
  sub <> "" -> found (pre +:+ sub +:+ post) sub = true.
Proof.
  intros Hsub. unfold found.
  destruct (String.index 0 sub (pre +:+ sub +:+ post)) as [i|] eqn:E; [done|].
  exfalso.
  apply (String.index_correct3 0 (String.length pre + 0) _ _ E Hsub); [lia|].
  rewrite substring_skip. apply substring_append_l.
Qed.

(** X23. The name and the package flag of a module built from data.
    Under the name [pkg.__init__] the module is named [pkg] and is a package,
    whatever the path.  Under another name the module keeps its name; it is
    a package when it has a path in which [__init__.py] occurs, at any
    place, and is not one when it has no path. *)
Theorem data_build_package (modname : string) (path : option string) :
  (forall pkg, modname = pkg +:+ ".__init__" ->
     _data_build modname path = (pkg, true))
  /\ (endswith modname ".__init__" = false ->
      (forall pre post, path = Some (pre +:+ "__init__.py" +:+ post) ->
         _data_build modname path = (modname, true))
      /\ (path = None -> _data_build modname path = (modname, false))).
Proof.
  split.
  - intros pkg ->. unfold _data_build. rewrite endswith_append.
    unfold drop_last. rewrite length_append. cbn [String.length].
    replace (String.length pkg + 9 - 9) with (String.length pkg) by lia.
    by rewrite substring_append_l.
  - intros Hend. unfold _data_build. rewrite Hend. split.
    + intros pre post ->. rewrite found_append by done.
      case_decide as Hp; [|done].
      exfalso. apply (f_equal String.length) in Hp.
      rewrite !length_append in Hp. cbn in Hp. lia.
    + by intros ->.
Qed.

(** A file named [my__init__.py] makes its module a package. *)
Lemma data_build_package_witness :
  _data_build "pkg.__init__" None = ("pkg", true)
  /\ _data_build "mod" (Some "/src/my__init__.py") = ("mod", true).
Proof.
  destruct (data_build_package "pkg.__init__" None) as [H1 _].
  destruct (data_build_package "mod" (Some "/src/my__init__.py")) as [_ H2].
  split.
  - by apply (H1 "pkg").
  - destruct (H2 eq_refl) as [H _]. by apply (H "/src/my" "").
Defined.

Section delayed_assignments.
Context {A : Type} `{EqDecision A} (frame_name : A -> string).

Lemma delay_elem_of (node : A) (values : list A) (x : A) :
  x ∈ delay frame_name node values <-> x = node \/ x ∈ values.
Proof.
  unfold delay. case_bool_decide as Hin.
  - split; [by auto|]. by intros [-> | ?].
  - destruct values as [|first values].
    + cbn. rewrite list_elem_of_singleton. split; [by auto|].
      intros [-> | H']; [done|]. by apply not_elem_of_nil in H'.
    + destruct (_ && _).
      * by rewrite elem_of_cons.
      * rewrite elem_of_app, list_elem_of_singleton. tauto.
Qed.
End delayed_assignments.

(** X24. One recording of an attribute assignment by
    [delayed_assignments]: the assignment is in the list afterwards, nothing
    else is added or removed, no assignment is listed twice if none was, a
    second recording changes nothing, and if an assignment made in
    [__init__] heads the list whenever the list has one, it still does. *)
Theorem delay_spec {A : Type} `{EqDecision A} (frame_name : A -> string)
  (node : A) (values : list A) :
  (forall x, x ∈ delay frame_name node values <-> x = node \/ x ∈ values)
  /\ (NoDup values -> NoDup (delay frame_name node values))
  /\ delay frame_name node (delay frame_name node values)
     = delay frame_name node values
  /\ ((forall x first, x ∈ values -> frame_name x = "__init__" ->
         head values = Some first -> frame_name first = "__init__") ->
      forall x first, x ∈ delay frame_name node values ->
        frame_name x = "__init__" ->
        head (delay frame_name node values) = Some first ->
        frame_name first = "__init__").
Proof.
  split; [apply delay_elem_of|]. split; [|split].
  - intros Hnd. unfold delay. case_bool_decide as Hin; [done|].
    destruct values as [|first values].
    + apply NoDup_singleton.
    + destruct (_ && _).
      * by apply NoDup_cons.
      * apply NoDup_app. split; [done|]. split; [|apply NoDup_singleton].
        intros x Hx Hx'. apply list_elem_of_singleton in Hx' as ->. done.
  - unfold delay at 1. rewrite bool_decide_true; [done|].
    apply delay_elem_of. by left.
  - intros Hinv x first Hx Hinit. unfold delay in *.
    case_bool_decide as Hin; [intros Hh; by apply (Hinv x first)|].
    destruct values as [|v values].
    + cbn in *. apply list_elem_of_singleton in Hx as ->. by intros [= <-].
    + destruct (bool_decide (frame_name node = "__init__")) eqn:En; cbn [andb] in *.
      * apply bool_decide_eq_true in En.
        destruct (bool_decide (frame_name v = "__init__")) eqn:Ev; cbn in *.
        -- apply bool_decide_eq_true in Ev. by intros [= <-].
        -- by intros [= <-].
      * apply bool_decide_eq_false in En. cbn. intros [= <-].
        apply elem_of_app in Hx as [Hx|Hx].
        -- by apply (Hinv x v).
        -- apply list_elem_of_singleton in Hx as ->. done.
Qed.

(** Recording an assignment made in [__init__] in a list that holds one
    made in [setup]; the assignments are named by their frames. *)
Lemma delay_spec_witness :
  NoDup (delay (fun n : string => n) "__init__" ["setup"]).
Proof.
  apply (delay_spec (fun n : string => n) "__init__" ["setup"]).
  apply NoDup_singleton.
Defined.

End BuilderTheory.

(** ** The hooks for [list] and [tuple] *)
Module BrainTheory.
Import Infer Brain.

Lemma isinstance_from_constants (k : klass) (elts : list pyval) :
  isinstance (from_constants k elts) k = true.
Proof. by destruct k. Qed.

Lemma generic_transform_class (arg : node) (k : klass) (iterables : list klass)
  (n : node) :
  _generic_transform arg k iterables = Value (Some n) -> isinstance n k = true.
Proof.
  unfold _generic_transform. destruct (isinstance arg k) eqn:E.
  { by intros [= <-]. }
  destruct arg as [[]| | | | | | | | | |]; try done.
  all: repeat case_match; try done; intros [= <-];
    apply isinstance_from_constants.
Qed.

Lemma generic_transform_raised (arg : node) (k : klass) (iterables : list klass)
  (e : exn) :
  _generic_transform arg k iterables <> Raised e.
Proof.
  unfold _generic_transform. repeat case_match; done.
Qed.

(** X25. What the hooks for [list] and [tuple] return is a node of
    the class asked for.  When the argument is not a literal the hook can
    convert, its inference is consulted: if that inference fails with an
    inference error, yields nothing, or yields [YES] first, the hook raises
    [UseInferenceDefault]; so an inference error or a [StopIteration] never
    comes out of the hook as such. *)
Theorem infer_builtin_contract
  (infer : node -> option InferenceContext -> outcome gen)
  (args : list node) (context : option InferenceContext) (k : klass)
  (iterables : list klass) :
  (forall n, _infer_builtin infer args context k iterables = Value n ->
     isinstance n k = true)
  /\ (forall e, _infer_builtin infer args context k iterables = Raised e ->
        is_InferenceError e = false /\ e <> StopIteration)
  /\ (forall arg,
        args = [arg] ->
        _generic_transform arg k iterables = Value None ->
        (forall e,
           (g ← infer arg context; next g) = Exc e ->
           is_InferenceError e = true \/ e = StopIteration ->
           _infer_builtin infer args context k iterables = UseInferenceDefault)
        /\ (forall e,
              infer arg context = Exc e -> is_InferenceError e = true ->
              _infer_builtin infer args context k iterables
              = UseInferenceDefault)
        /\ (infer arg context = Ret (iter []) ->
            _infer_builtin infer args context k iterables = UseInferenceDefault)
        /\ ((g ← infer arg context; next g) = Ret YES ->
            _infer_builtin infer args context k iterables
            = UseInferenceDefault)).
Proof.
  unfold _infer_builtin, _generic_inference.
  split; [|split].
  - destruct args as [|arg [|]]; [| |done].
    { intros n [= <-]. by destruct k. }
    destruct (_generic_transform arg k iterables) as [[t|]| |e0] eqn:Et;
      try done.
    + intros n [= <-]. by eapply generic_transform_class.
    + destruct (g ← infer arg context; next g) as [[|v]|e1]; [done| |].
      * destruct (_generic_transform v k iterables) as [[t|]| |e0] eqn:Ev;
          try done.
        intros n [= <-]. by eapply generic_transform_class.
      * by destruct (is_InferenceError e1 || bool_decide (e1 = StopIteration)).
  - destruct args as [|arg [|]]; [done| |done].
    destruct (_generic_transform arg k iterables) as [[t|]| |e0] eqn:Et;
      try done.
    + destruct (g ← infer arg context; next g) as [[|v]|e1]; [done| |].
      * destruct (_generic_transform v k iterables) as [[t|]| |e0] eqn:Ev;
          try done.
        by apply generic_transform_raised in Ev.
      * destruct (is_InferenceError e1 || bool_decide (e1 = StopIteration))
          eqn:E; [done|].
        intros e [= <-].
        apply orb_false_iff in E as [E1 E2].
        by apply bool_decide_eq_false in E2.
    + by apply generic_transform_raised in Et.
  - intros arg -> ->.
    assert (forall e,
              (g ← infer arg context; next g) = Exc e ->
              is_InferenceError e = true \/ e = StopIteration ->
              match (g ← infer arg context; next g) with
              | Exc e =>
                  if is_InferenceError e || bool_decide (e = StopIteration)
                  then UseInferenceDefault else Raised e
              | Ret YES => UseInferenceDefault
              | Ret (Inferred inferred_) =>
                  match _generic_transform inferred_ k iterables with
                  | Value (Some transformed) => Value transformed
                  | Value None => UseInferenceDefault
                  | UseInferenceDefault => UseInferenceDefault
                  | Raised e => Raised e
                  end
              end = @UseInferenceDefault node) as Hexc.
    { intros e -> [He | ->]; [by rewrite He|].
      by rewrite bool_decide_true, orb_true_r. }
    split; [exact Hexc|]. split; [|split].
    + intros e He Hi. apply (Hexc e); [by rewrite He|by left].
    + intros Hg. apply (Hexc StopIteration); [by rewrite Hg|by right].
    + by intros ->.
Qed.

(** What [tuple([1])] returns is a tuple node; [tuple(x)], where nothing
    binds [x], asks for the default inference. *)
Lemma infer_builtin_contract_witness :
  isinstance (Tuple [Const (VInt 1)]) TupleClass = true
  /\ _infer_builtin (infer no_bindings 1) [Name 1 "x"] None TupleClass [ListClass]
     = UseInferenceDefault.
Proof.
  split.
  - apply (proj1 (infer_builtin_contract (infer no_bindings 1)
                    [List [Const (VInt 1)]] None TupleClass [ListClass])).
    reflexivity.
  - destruct (infer_builtin_contract (infer no_bindings 1)
                [Name 1 "x"] None TupleClass [ListClass]) as (_ & _ & H).
    destruct (H (Name 1 "x") eq_refl eq_refl) as [Hexc _].
    apply (Hexc UnresolvableName); [reflexivity | by left].
Defined.

Lemma values_of_consts (vs : list pyval) : values_of (Const <$> vs) = Some vs.
Proof.
  induction vs as [|v vs IH]; [done|]. cbn [fmap list_fmap values_of].
  cbn [fmap] in IH. by rewrite IH.
Qed.

Lemma const_factory_scalars (vs : list pyval) :
  Forall (fun v => scalar v = true) vs -> const_factory <$> vs = Const <$> vs.
Proof.
  induction 1 as [|v vs Hv _ IH]; [done|]. cbn [fmap list_fmap].
  cbn [fmap] in IH. rewrite IH. by destruct v.
Qed.

(** X26. Converting between literal lists and tuples of constants.
    [tuple] of a list node whose elements are constants is the tuple node of
    the same constants, [list] of that tuple is the list again, and the same
    holds when the argument is a node whose first inferred value is the list;
    [list] of a list node is that node, whatever its elements; a tuple with
    an element that is not a constant is left to the default inference. *)
Theorem infer_list_tuple
  (infer : node -> option InferenceContext -> outcome gen)
  (context : option InferenceContext) (vs : list pyval) :
  Forall (fun v => scalar v = true) vs ->
  infer_tuple infer [List (Const <$> vs)] context = Value (Tuple (Const <$> vs))
  /\ infer_list infer [Tuple (Const <$> vs)] context
     = Value (List (Const <$> vs))
  /\ (forall uid name g,
        infer (Name uid name) context = Ret g ->
        next g = Ret (Inferred (List (Const <$> vs))) ->
        infer_tuple infer [Name uid name] context
        = Value (Tuple (Const <$> vs)))
  /\ (forall elts, infer_list infer [List elts] context = Value (List elts))
  /\ (forall elts, values_of elts = None ->
        infer_list infer [Tuple elts] context = UseInferenceDefault).
Proof.
  intros Hvs. unfold infer_tuple, infer_list, _infer_builtin, _generic_inference,
    _generic_transform.
  split; [|split; [|split; [|split]]].
  - cbn. rewrite values_of_consts. unfold Tuple_from_constants.
    by rewrite const_factory_scalars.
  - cbn. rewrite values_of_consts. unfold List_from_constants.
    by rewrite const_factory_scalars.
  - intros uid name g Hg Hnext. cbn. rewrite Hg. cbn. rewrite Hnext. cbn.
    rewrite values_of_consts. unfold Tuple_from_constants.
    by rewrite const_factory_scalars.
  - done.
  - intros elts Hnone. cbn. by rewrite Hnone.
Qed.

(** [tuple([1, 2])] and back. *)
Lemma infer_list_tuple_witness :
  infer_tuple (infer no_bindings 1) [List [Const (VInt 1); Const (VInt 2)]] None
  = Value (Tuple [Const (VInt 1); Const (VInt 2)])
  /\ infer_list (infer no_bindings 1) [Tuple [Const (VInt 1); Const (VInt 2)]] None
     = Value (List [Const (VInt 1); Const (VInt 2)]).
Proof.
  destruct (infer_list_tuple (infer no_bindings 1) None [VInt 1; VInt 2])
    as (H1 & H2 & _).
  - repeat constructor.
  - split; [exact H1 | exact H2].
Defined.

End BrainTheory.
